(** * sb-render: depth-based parallax generator

    A shallow embedding of [scripts/depth_parallax.py].

    Numeric model.  Python [float] values are idealised as real numbers
    ([R]) where the code goes through the cosine easing, and as rationals
    ([Q]) where it is plain field arithmetic on array elements (depth
    normalisation, layer thresholds), so that those parts still evaluate.
    Python [int] is [Z]; [//] is [Z.div] and [%] is [Z.modulo] (both floor,
    as in Python, for the positive divisors used here); [int(x)] on a float
    truncates towards zero.  Strings are [string]; a 2-D numpy array is a
    list of rows. *)

From Stdlib Require Import ZArith QArith Qround Qminmax Qabs Qpower Reals Psatz Lia.
From Stdlib Require Import Ascii String DecimalString Bool List.
From Stdlib Require Import Permutation Sorted.
Import ListNotations.

Open Scope Z_scope.

(** ** Python numerics *)

Module Py.

(** [int(x)] for a float [x]: truncation towards zero. *)
Definition int_of_float (x : R) : Z :=
  if Rle_dec 0 x then Int_part x else - Int_part (- x).

End Py.

(** ** Motion and canvas parameters of [generate_parallax_video] *)

Module Parallax.

Open Scope R_scope.

(** [{"subtle": 0.5, "normal": 1.0, "dramatic": 1.5}.get(intensity, 1.0)] *)
Definition intensity_mult (intensity : string) : R :=
  if String.eqb intensity "subtle" then 0.5
  else if String.eqb intensity "normal" then 1.0
  else if String.eqb intensity "dramatic" then 1.5
  else 1.0.

Definition bg_speed (intensity : string) : R := 15 * intensity_mult intensity.
Definition fg_speed (intensity : string) : R := 40 * intensity_mult intensity.

(** [pad_x = int(max(fg_speed, bg_speed) * 3)], and the same for [pad_y]. *)
Definition pad_x (intensity : string) : Z :=
  Py.int_of_float (Rmax (fg_speed intensity) (bg_speed intensity) * 3).
Definition pad_y (intensity : string) : Z :=
  Py.int_of_float (Rmax (fg_speed intensity) (bg_speed intensity) * 3).

(** Output dimensions: [orig - (orig % 2)]. *)
Definition even_dim (orig : Z) : Z := (orig - orig mod 2)%Z.

(** Shape of [cv2.copyMakeBorder(img, top=pad_y, bottom=pad_y, left=pad_x,
    right=pad_x)] for an image of [width] x [height]. *)
Definition padded_w (width : Z) (intensity : string) : Z :=
  (width + pad_x intensity + pad_x intensity)%Z.
Definition padded_h (height : Z) (intensity : string) : Z :=
  (height + pad_y intensity + pad_y intensity)%Z.

Definition bg_scale : R := 1.1.

(** [bg_scaled_w = int(padded_w * bg_scale)]: the Canvas dimensions. *)
Definition bg_scaled_w (width : Z) (intensity : string) : Z :=
  Py.int_of_float (IZR (padded_w width intensity) * bg_scale).
Definition bg_scaled_h (height : Z) (intensity : string) : Z :=
  Py.int_of_float (IZR (padded_h height intensity) * bg_scale).

(** [bg_center_offset_x = (bg_scaled_w - width) // 2] *)
Definition bg_center_offset_x (width : Z) (intensity : string) : Z :=
  ((bg_scaled_w width intensity - width) / 2)%Z.
Definition bg_center_offset_y (height : Z) (intensity : string) : Z :=
  ((bg_scaled_h height intensity - height) / 2)%Z.

(** Direction vectors; anything but the four names is "no pan". *)
Definition direction_vector (direction : string) : Z * Z :=
  if String.eqb direction "left" then (-1, 0)%Z
  else if String.eqb direction "right" then (1, 0)%Z
  else if String.eqb direction "up" then (0, -1)%Z
  else if String.eqb direction "down" then (0, 1)%Z
  else (0, 0)%Z.

Definition zoom_amount (intensity : string) : R := 0.15 * intensity_mult intensity.

(** [(zoom_start, zoom_end)] *)
Definition zoom_range (zoom intensity : string) : R * R :=
  if String.eqb zoom "in" then (1.0, 1.0 + zoom_amount intensity)
  else if String.eqb zoom "out" then (1.0 + zoom_amount intensity, 1.0)
  else (1.0, 1.0).

Definition zoom_start (zoom intensity : string) : R := fst (zoom_range zoom intensity).
Definition zoom_end (zoom intensity : string) : R := snd (zoom_range zoom intensity).


(** [def ease_in_out_sine(t): return (1 - np.cos(t * np.pi)) / 2] *)
Definition ease_in_out_sine (t : R) : R := (1 - cos (t * PI)) / 2.

(** [t = frame_idx / max(total_frames - 1, 1)] *)
Definition progress (frame_idx total : Z) : R :=
  IZR frame_idx / IZR (Z.max (total - 1) 1).

Definition eased_t (frame_idx total : Z) : R :=
  ease_in_out_sine (progress frame_idx total).

(** [current_zoom = zoom_start + (zoom_end - zoom_start) * eased_t] *)
Definition current_zoom (zoom intensity : string) (frame_idx total : Z) : R :=
  zoom_start zoom intensity
  + (zoom_end zoom intensity - zoom_start zoom intensity) * eased_t frame_idx total.

(** [bg_offset_x = int(dx * bg_speed * eased_t)] and its three siblings. *)
Definition bg_offset_x (direction intensity : string) (frame_idx total : Z) : Z :=
  Py.int_of_float (IZR (fst (direction_vector direction)) * bg_speed intensity
                   * eased_t frame_idx total).
Definition bg_offset_y (direction intensity : string) (frame_idx total : Z) : Z :=
  Py.int_of_float (IZR (snd (direction_vector direction)) * bg_speed intensity
                   * eased_t frame_idx total).
Definition fg_offset_x (direction intensity : string) (frame_idx total : Z) : Z :=
  Py.int_of_float (IZR (fst (direction_vector direction)) * fg_speed intensity
                   * eased_t frame_idx total).
Definition fg_offset_y (direction intensity : string) (frame_idx total : Z) : Z :=
  Py.int_of_float (IZR (snd (direction_vector direction)) * fg_speed intensity
                   * eased_t frame_idx total).

(** The crop corner on the Canvas before the clamp:
    [crop_x = bg_center_offset_x - bg_offset_x]. *)
Definition crop_x (width : Z) (direction intensity : string) (frame_idx total : Z) : Z :=
  (bg_center_offset_x width intensity - bg_offset_x direction intensity frame_idx total)%Z.
Definition crop_y (height : Z) (direction intensity : string) (frame_idx total : Z) : Z :=
  (bg_center_offset_y height intensity - bg_offset_y direction intensity frame_idx total)%Z.

(** [crop_x = max(0, min(crop_x, bg_scaled_w - width))] *)
Definition clamp_crop_x (width : Z) (intensity : string) (cx : Z) : Z :=
  Z.max 0 (Z.min cx (bg_scaled_w width intensity - width)).
Definition clamp_crop_y (height : Z) (intensity : string) (cy : Z) : Z :=
  Z.max 0 (Z.min cy (bg_scaled_h height intensity - height)).

(** *** Image sizes

    Of a PIL image only its size matters to the claims on frame
    dimensions: [crop(box)] returns an image of the size of the box,
    [resize(size)] one of the requested size, [convert], [copy] and [paste]
    keep the size. *)
Record Image := mkImage { im_width : Z; im_height : Z }.

Definition crop (im : Image) (box : Z * Z * Z * Z) : Image :=
  let '(x0, y0, x1, y1) := box in mkImage (x1 - x0) (y1 - y0).
Definition resize (im : Image) (size : Z * Z) : Image :=
  mkImage (fst size) (snd size).
Definition convert (im : Image) : Image := im.
Definition paste (im fg : Image) (pos : Z * Z) : Image := im.

(** [zoomed_w = int(width * current_zoom)] *)
Definition zoomed_dim (dim : Z) (z : R) : Z := Py.int_of_float (IZR dim * z).

(** One iteration of the frame loop, lines 259-301, for a source image of
    [orig_width] x [orig_height]: the size of [frame_rgb]. *)
Definition render_frame (orig_width orig_height : Z)
    (direction intensity zoom : string) (frame_idx total : Z) : Image :=
  let width := even_dim orig_width in
  let height := even_dim orig_height in
  let background_scaled :=
    mkImage (bg_scaled_w width intensity) (bg_scaled_h height intensity) in
  let foreground := mkImage width height in
  let cx := clamp_crop_x width intensity
              (crop_x width direction intensity frame_idx total) in
  let cy := clamp_crop_y height intensity
              (crop_y height direction intensity frame_idx total) in
  let frame := crop background_scaled (cx, cy, cx + width, cy + height)%Z in
  let frame := convert frame in
  let frame := paste frame foreground
                 (fg_offset_x direction intensity frame_idx total,
                  fg_offset_y direction intensity frame_idx total) in
  let z := current_zoom zoom intensity frame_idx total in
  let frame :=
    if Req_dec_T z 1.0 then frame
    else
      let zoomed_w := zoomed_dim width z in
      let zoomed_h := zoomed_dim height z in
      let frame_zoomed := resize frame (zoomed_w, zoomed_h) in
      let left := ((zoomed_w - width) / 2)%Z in
      let top := ((zoomed_h - height) / 2)%Z in
      crop frame_zoomed (left, top, left + width, top + height)%Z in
  convert frame.

End Parallax.

(** ** The depth normaliser of [estimate_depth] *)

Module Depth.

Open Scope Q_scope.

(** A 2-D numpy array: a list of rows. *)
Definition array2 (A : Type) : Type := list (list A).

(** [np.array(result["depth"])]: the estimator hands back its depth map as
    a grey-level image, whose samples are integers. *)
Definition np_array (image : array2 Z) : array2 Q := map (map inject_Z) image.

(** [a.min()] and [a.max()] over all elements; numpy raises on an empty
    array, hence the option. *)
Definition arr_min (a : array2 Q) : option Q :=
  match concat a with
  | [] => None
  | x :: l => Some (fold_left Qmin l x)
  end.

Definition arr_max (a : array2 Q) : option Q :=
  match concat a with
  | [] => None
  | x :: l => Some (fold_left Qmax l x)
  end.

(** The guard [1e-8] of the denominator. *)
Definition eps : Q := 1 # 100000000.

(** [(depth_map - depth_map.min()) / (depth_map.max() - depth_map.min() + 1e-8)] *)
Definition normalize (depth_map : array2 Q) : option (array2 Q) :=
  match arr_min depth_map, arr_max depth_map with
  | Some lo, Some hi =>
      Some (map (map (fun d => (d - lo) / (hi - lo + eps))) depth_map)
  | _, _ => None
  end.


(** *** [create_layer_masks] *)

(** [np.linspace(0, 1, num_layers + 1)]: entry [i] is [i / num_layers]. *)
Definition thresholds (num_layers : nat) : list Q :=
  map (fun i => inject_Z (Z.of_nat i) / inject_Z (Z.of_nat num_layers))
      (seq 0 (S num_layers)).

(** [.astype(np.float32)] of a boolean. *)
Definition astype_float (b : bool) : Q := if b then 1 else 0.

(** [d < high] on floats. *)
Definition Qlt_bool (x y : Q) : bool := negb (Qle_bool y x).

(** The value of layer [i]'s mask at a pixel of depth [d]. *)
Definition mask_value (num_layers i : nat) (d : Q) : Q :=
  let low := nth i (thresholds num_layers) 0 in
  let high := nth (S i) (thresholds num_layers) 0 in
  if Nat.eqb i (num_layers - 1)
  then astype_float (Qle_bool low d && Qle_bool d high)
  else astype_float (Qle_bool low d && Qlt_bool d high).

Definition create_layer_masks (depth_map : array2 Q) (num_layers : nat)
  : list (array2 Q) :=
  map (fun i => map (map (mask_value num_layers i)) depth_map)
      (seq 0 num_layers).

(** [a[r][c]], when in range. *)
Definition at2 {A : Type} (a : array2 A) (r c : nat) : option A :=
  match nth_error a r with
  | Some row => nth_error row c
  | None => None
  end.

End Depth.

(** ** The dilation of the inpainting mask *)

Module Morphology.

Open Scope Z_scope.

Definition mask : Type := list (list Z).

(** The sample at row [r], column [c]; outside the image the dilation sees
    the lowest grey level, which never wins a maximum over 8-bit samples. *)
Definition pixel (m : mask) (r c : Z) : Z :=
  if (0 <=? r) && (0 <=? c)
  then nth (Z.to_nat c) (nth (Z.to_nat r) m []) 0
  else 0.

(** Offsets covered by [np.ones((7, 7))] around its centre anchor. *)
Definition kernel_offsets : list Z := [-3; -2; -1; 0; 1; 2; 3].

Definition window_max (m : mask) (r c : Z) : Z :=
  fold_right Z.max 0
    (flat_map (fun dr => map (fun dc => pixel m (r + dr) (c + dc)) kernel_offsets)
              kernel_offsets).

(** One pass of [cv2.dilate] with the 7x7 kernel of ones: every sample
    becomes the maximum of its 7x7 neighbourhood. *)
Definition dilate1 (m : mask) : mask :=
  map (fun r =>
         map (fun c => window_max m (Z.of_nat r) (Z.of_nat c))
             (seq 0 (length (nth r m []))))
      (seq 0 (length m)).

(** [cv2.dilate(src, kernel, iterations=n)] *)
Fixpoint dilate (m : mask) (iterations : nat) : mask :=
  match iterations with
  | O => m
  | S n => dilate (dilate1 m) n
  end.

(** [inpaint_mask = cv2.dilate((fg_mask * 255).astype(np.uint8), kernel,
    iterations=4)], given the 8-bit mask. *)
Definition inpaint_mask (hard_mask : mask) : mask := dilate hard_mask 4.

(** A binary 8-bit mask: every sample is 0 or 255. *)
Definition binary (m : mask) : Prop :=
  Forall (Forall (fun v => v = 0 \/ v = 255)) m.

Definition in_image (m : mask) (r c : nat) : Prop :=
  (r < length m)%nat /\ (c < length (nth r m []))%nat.

(** A rectangular mask: all rows have [w] samples. *)
Definition rows_have_width (w : nat) (m : mask) : Prop :=
  forall row, In row m -> length row = w.

(** Integer coordinates that fall in a mask of width [w]. *)
Definition inside (w : nat) (m : mask) (r c : Z) : Prop :=
  0 <= r < Z.of_nat (length m) /\ 0 <= c < Z.of_nat w.

End Morphology.

(** ** The process entry point [main] *)

Module Entry.

Inductive value :=
| VStr (s : string)
| VInt (n : Z)
| VFloat (q : Q)
| VOther.

Definition dict : Type := list (string * value).

(** What [json.loads] may return: an object, or some other JSON value. *)
Inductive json :=
| JObject (d : dict)
| JOther.

Inductive exn :=
| JSONDecodeError (msg : string)
| AttributeError (msg : string)
| OtherException (msg : string).

(** [str(e)] *)
Definition str (e : exn) : string :=
  match e with
  | JSONDecodeError msg | AttributeError msg | OtherException msg => msg
  end.

(** Lines printed on standard output by [print(json.dumps(...))]. *)
Inductive line :=
| Success (output : string)          (* {success: true, output: ...} *)
| Failure (error : string).          (* {success: false, error: ...} *)

(** What [main] itself and the interpreter write on standard error; the
    progress lines the pipeline prints there are not recorded. *)
Inductive diagnostic :=
| Usage
| Traceback (e : exn).

Record process := mkProcess {
  stdout : list line;
  stderr : list diagnostic;
  exit_code : Z
}.

(** [options.get(key, default)] *)
Fixpoint get (options : dict) (key : string) (default : value) : value :=
  match options with
  | [] => default
  | (k, v) :: rest => if String.eqb k key then v else get rest key default
  end.

(** An exception that reaches the top of the interpreter: traceback on
    standard error, exit status 1, nothing printed by the program. *)
Definition uncaught (e : exn) : process := mkProcess [] [Traceback e] 1.

Section Main.

(** [json.loads] and the pipeline itself are taken as given. *)
Variable json_loads : string -> exn + json.
Variable generate_parallax_video :
  string -> string -> value -> value -> value -> value -> value -> value ->
  exn + string.

Definition main (argv : list string) : process :=
  match argv with
  | _ :: input_path :: output_path :: rest =>
      let parsed :=
        match rest with
        | [] => inr (JObject [])
        | s :: _ => json_loads s
        end in
      match parsed with
      | inl e => uncaught e
      | inr JOther => uncaught (AttributeError "object has no attribute 'get'")
      | inr (JObject options) =>
          let direction := get options "direction" (VStr "right") in
          let intensity := get options "intensity" (VStr "normal") in
          let duration := get options "duration" (VFloat 5) in
          let fps := get options "fps" (VInt 24) in
          let num_layers := get options "layerCount" (VInt 3) in
          let zoom := get options "zoom" (VStr "none") in
          match generate_parallax_video input_path output_path
                  direction intensity duration fps num_layers zoom with
          | inr _ => mkProcess [Success output_path] [] 0
          | inl e => mkProcess [Failure (str e)] [] 1
          end
      end
  | _ => mkProcess [] [Usage] 1
  end.

End Main.

(** The payload the entry contract promises on a failure. *)
Definition reports_failure (p : process) : Prop :=
  exists msg, stdout p = [Failure msg].

(** Stand-ins to run [main] on concrete command lines: a decoder that
    knows the empty object only and rejects every other text, as
    [json.loads] rejects an opening brace followed by a bare word, and a
    pipeline that always succeeds. *)
Definition loads_empty_object (s : string) : exn + json :=
  if String.eqb s "{}" then inr (JObject [])
  else inl (JSONDecodeError "Expecting property name enclosed in double quotes").

Definition pipeline_ok (input_path output_path : string)
    (direction intensity duration fps num_layers zoom : value) : exn + string :=
  inr output_path.

End Entry.

(** ** The frame loop *)

Module Sequence.

Import Parallax.

(** [range(n)] *)
Definition range (n : Z) : list Z := map Z.of_nat (seq 0 (Z.to_nat n)).

(** Lines 259-306, [for frame_idx in range(total_frames): ...], given the
    value of [total_frames]: the frames written, in order, for a source
    image of [orig_width] x [orig_height]. *)
Definition frame_loop (orig_width orig_height : Z)
    (direction intensity zoom : string) (total : Z) : list Image :=
  map (fun frame_idx =>
         render_frame orig_width orig_height direction intensity zoom
           frame_idx total)
      (range total).

End Sequence.

(** ** The seam-blending weight mask *)

Module EdgeMask.

Open Scope Q_scope.

(** A 2-D float array given by its shape and its entries. *)
Record farray := mkArr {
  shape0 : nat;
  shape1 : nat;
  elt : nat -> nat -> Q
}.

(** [np.ones((h, w))] *)
Definition ones (h w : nat) : farray := mkArr h w (fun _ _ => 1).

(** Entry [j] of [np.linspace(start, stop, num)]. *)
Definition linspace (start stop : Q) (num j : nat) : Q :=
  start + inject_Z (Z.of_nat j) * ((stop - start) / inject_Z (Z.of_nat (num - 1))).

(** [a[:k, :] = v.reshape(-1, 1)] *)
Definition set_top_rows (a : farray) (k : nat) (v : nat -> Q) : farray :=
  mkArr (shape0 a) (shape1 a)
        (fun r c => if (r <? k)%nat then v r else elt a r c).

(** [a[-k:, :] = v.reshape(-1, 1)] *)
Definition set_bottom_rows (a : farray) (k : nat) (v : nat -> Q) : farray :=
  mkArr (shape0 a) (shape1 a)
        (fun r c => if (shape0 a - k <=? r)%nat then v (r - (shape0 a - k))%nat
                    else elt a r c).

(** [a[:, i] = np.minimum(a[:, i], x)] *)
Definition min_col (a : farray) (i : nat) (x : Q) : farray :=
  mkArr (shape0 a) (shape1 a)
        (fun r c => if (c =? i)%nat then Qmin (elt a r c) x else elt a r c).

Definition edge_blur_size : nat := 30.

(** One turn of the loop over [i]: both the column [i] and its mirror
    column [-(i+1)] are capped by [i / (pad_x + edge_blur_size)]. *)
Definition column_step (kx : nat) (a : farray) (i : nat) : farray :=
  let blend_factor := inject_Z (Z.of_nat i) / inject_Z (Z.of_nat kx) in
  let a := min_col a i blend_factor in
  min_col a (shape1 a - (i + 1)) blend_factor.

(** Lines 205-212.  The row assignments need [pad_y + 30] rows and the
    column loop [pad_x + 30] columns; numpy raises otherwise. *)
Definition edge_mask (h w pad_x pad_y : nat) : option farray :=
  let ky := (pad_y + edge_blur_size)%nat in
  let kx := (pad_x + edge_blur_size)%nat in
  if (ky <=? h)%nat && (kx <=? w)%nat then
    let m := ones h w in
    let m := set_top_rows m ky (linspace 0 1 ky) in
    let m := set_bottom_rows m ky (linspace 1 0 ky) in
    Some (fold_left (column_step kx) (seq 0 kx) m)
  else None.

End EdgeMask.

(** ** The lazily loaded depth estimator *)

Module Estimator.

Inductive message := Loading | Loaded.

(** The process state [get_depth_estimator] touches: the global
    [_depth_estimator] (an object reference, once set), the next fresh
    object reference, and what was printed on standard error. *)
Record world := mkWorld {
  depth_estimator : option nat;
  next_object : nat;
  printed : list message
}.

Definition initial : world := mkWorld None 0 [].

(** [pipeline(...)] builds a new object. *)
Definition pipeline (w : world) : nat * world :=
  (next_object w,
   mkWorld (depth_estimator w) (S (next_object w)) (printed w)).

Definition get_depth_estimator (w : world) : nat * world :=
  match depth_estimator w with
  | None =>
      let w := mkWorld (depth_estimator w) (next_object w) (printed w ++ [Loading]) in
      let (obj, w) := pipeline w in
      let w := mkWorld (Some obj) (next_object w) (printed w ++ [Loaded]) in
      (obj, w)
  | Some obj => (obj, w)
  end.

(** [n] calls in a row: the references returned, and the final state. *)
Fixpoint calls (n : nat) (w : world) : list nat * world :=
  match n with
  | O => ([], w)
  | S n =>
      let (obj, w) := get_depth_estimator w in
      let (objs, w) := calls n w in
      (obj :: objs, w)
  end.

End Estimator.

(** ** Stand-in decoders for runs of [main] *)

Module EntrySamples.

Import Entry.

(** A decoder given by a finite table of texts and their values; any other
    text is rejected. *)
Fixpoint loads_table (table : list (string * json)) (s : string) : exn + json :=
  match table with
  | [] => inl (JSONDecodeError "Expecting value")
  | (text, v) :: rest => if String.eqb text s then inr v else loads_table rest s
  end.

(** Lines 326-334: the end of [generate_parallax_video], given the exit
    status and the standard error text of the encoder run. *)
Definition encoder_outcome (returncode : Z) (stderr_text output_path : string)
  : exn + string :=
  if (returncode =? 0)%Z then inr output_path
  else inl (OtherException ("FFmpeg failed: " ++ stderr_text)).

(** A pipeline whose earlier stages succeed and whose encoder ends with
    the given status and text. *)
Definition pipeline_encoding (returncode : Z) (stderr_text : string)
    (input_path output_path : string)
    (direction intensity duration fps num_layers zoom : value) : exn + string :=
  encoder_outcome returncode stderr_text output_path.

(** The option names [main] reads. *)
Definition recognised_keys : list string :=
  ["direction"; "intensity"; "duration"; "fps"; "layerCount"; "zoom"]%string.

End EntrySamples.

(** ** [format_time] of the subtitle converter *)

Module Srt.

Open Scope Z_scope.

(** Rounding to the nearest integer, ties to the even one. *)
Definition round_half_even (q : Q) : Z :=
  let f := Qfloor q in
  match Qcompare (q - inject_Z f) (1 # 2) with
  | Lt => f
  | Gt => f + 1
  | Eq => if Z.even f then f else f + 1
  end.

(** [datetime.timedelta(seconds=seconds)], held as its whole number of
    microseconds (a float argument is rounded to the nearest microsecond,
    ties to even).  The overflow error [timedelta] raises beyond
    999999999 days is not modelled: the properties below stay under one
    hundred hours. *)
Definition timedelta (seconds : Q) : Z := round_half_even (seconds * 1000000)%Q.

(** [delta.microseconds]: the normalised microsecond field, in
    [0, 999999]. *)
Definition microseconds (delta : Z) : Z := delta mod 1000000.

(** [int(delta.total_seconds())] *)
Definition int_total_seconds (delta : Z) : Z := Z.quot delta 1000000.

(** [divmod(a, b)] *)
Definition divmod (a b : Z) : Z * Z := (a / b, a mod b).

(** The local variables [hours, minutes, seconds, milliseconds]. *)
Definition time_fields (seconds : Q) : Z * Z * Z * Z :=
  let delta := timedelta seconds in
  let micros := microseconds delta in
  let total_seconds := int_total_seconds delta in
  let '(hours, remainder) := divmod total_seconds 3600 in
  let '(minutes, secs) := divmod remainder 60 in
  let milliseconds := micros / 1000 in
  (hours, minutes, secs, milliseconds).

(** [s.zfill]-like padding with "0" on the left up to [width]. *)
Definition zero_pad (width : nat) (s : string) : string :=
  String.concat "" (repeat "0"%string (width - String.length s)) ++ s.

(** The format specification [0{width}d]: decimal digits, zero-padded to
    [width] characters, the sign counting as one of them. *)
Definition format_d (width : nat) (n : Z) : string :=
  let ds := DecimalString.NilZero.string_of_uint (N.to_uint (Z.to_N (Z.abs n))) in
  if n <? 0 then "-" ++ zero_pad (width - 1) ds else zero_pad width ds.

Definition format_time (seconds : Q) : string :=
  let '(hours, minutes, secs, milliseconds) := time_fields seconds in
  format_d 2 hours ++ ":" ++ format_d 2 minutes ++ ":" ++ format_d 2 secs
  ++ "," ++ format_d 3 milliseconds.

(** Fixed-width renderings, to state the layout of the result. *)
Definition digit (d : Z) : ascii := ascii_of_nat (48 + Z.to_nat d).

Definition two_digits (n : Z) : string :=
  String (digit (n / 10)) (String (digit (n mod 10)) EmptyString).

Definition three_digits (n : Z) : string :=
  String (digit (n / 100)) (two_digits (n mod 100)).

End Srt.

(** ** Single-precision arithmetic and the seam blend *)

Module Float32.

Open Scope Q_scope.

(** The binade of a positive [x]: the greatest [e'] not above [e] with
    [2 ^ e' <= x], searched downwards through at most [fuel] exponents. *)
Fixpoint binade (fuel : nat) (e : Z) (x : Q) : Z :=
  match fuel with
  | O => e
  | S fuel' => if Qle_bool (2 ^ e) x then e else binade fuel' (e - 1) x
  end.

(** The exponent of a binary32 number of magnitude [x]: between -126 (also
    for subnormals and zero) and 127. *)
Definition exponent (x : Q) : Z := binade 253 127 x.

(** Rounding to the nearest binary32 number, ties to even: 24 significant
    bits.  Overflow to infinity, above 2^128, is not modelled. *)
Definition round (x : Q) : Q :=
  let ax := Qabs x in
  let quantum := 2 ^ (exponent ax - 23) in
  let nearest := inject_Z (Srt.round_half_even (ax / quantum)) * quantum in
  if Qle_bool 0 x then nearest else - nearest.

End Float32.

Module SeamBlend.

Open Scope Q_scope.

(** [float32 -> np.uint8]: truncation, modulo 256. *)
Definition astype_uint8 (q : Q) : Z :=
  ((if Qle_bool 0 q then Qfloor q else Qceiling q) mod 256)%Z.

(** One sample of line 217,
    [(background_padded * edge_mask + background_blurred * (1 - edge_mask)).astype(np.uint8)]:
    the 8-bit samples meet the float32 weight, so every operation is a
    float32 operation. *)
Definition blend (padded blurred : Z) (weight : Q) : Z :=
  astype_uint8
    (Float32.round
       (Float32.round (inject_Z padded * weight)
        + Float32.round (inject_Z blurred * Float32.round (1 - weight)))).

End SeamBlend.

(** ** The percentile threshold of the foreground mask *)

Module Foreground.

Import Depth.
Open Scope Q_scope.

Fixpoint insert (x : Q) (l : list Q) : list Q :=
  match l with
  | [] => [x]
  | y :: l' => if Qle_bool x y then x :: l else y :: insert x l'
  end.

(** The samples in non-decreasing order, as [np.percentile] takes them. *)
Definition sort (l : list Q) : list Q := fold_right insert [] l.

(** [np.percentile(a, q)] with the default linear interpolation: the value
    at the virtual index [q / 100 * (n - 1)] of the sorted samples. *)
Definition percentile (a : array2 Q) (q : Q) : option Q :=
  match concat a with
  | [] => None
  | flat =>
      let sorted := sort flat in
      let n := length sorted in
      let virtual_index := q / 100 * inject_Z (Z.of_nat (n - 1)) in
      let lower := Z.to_nat (Qfloor virtual_index) in
      let upper := Nat.min (lower + 1) (n - 1) in
      let gamma := virtual_index - inject_Z (Z.of_nat lower) in
      Some (nth lower sorted 0 + gamma * (nth upper sorted 0 - nth lower sorted 0))
  end.

(** [fg_threshold = np.percentile(depth_resized, 40)] and
    [fg_mask = (depth_resized >= fg_threshold).astype(np.float32)] *)
Definition fg_mask (depth_resized : array2 Q) : option (array2 Q) :=
  match percentile depth_resized 40 with
  | Some fg_threshold =>
      Some (map (map (fun d => astype_float (Qle_bool fg_threshold d)))
                depth_resized)
  | None => None
  end.

(** The number of samples set in a mask. *)
Definition coverage (m : array2 Q) : nat :=
  length (filter (fun v => Qeq_bool v 1) (concat m)).

End Foreground.

(** * Properties *)

(** ** Truncation *)

Section Truncation.

Open Scope R_scope.

Lemma Int_part_bounds (x : R) : IZR (Int_part x) <= x < IZR (Int_part x) + 1.
Proof. destruct (base_Int_part x); lra. Qed.

Lemma Int_part_IZR (z : Z) : Int_part (IZR z) = z.
Proof. symmetry; apply Int_part_spec; split; lra. Qed.

Lemma Int_part_mono (x y : R) : x <= y -> (Int_part x <= Int_part y)%Z.
Proof.
  intros Hxy.
  pose proof (Int_part_bounds x) as Hx.
  pose proof (Int_part_bounds y) as Hy.
  assert (H : IZR (Int_part x) < IZR (Int_part y + 1)).
  { rewrite plus_IZR; lra. }
  apply lt_IZR in H; lia.
Qed.

Lemma Int_part_nonneg (x : R) : 0 <= x -> (0 <= Int_part x)%Z.
Proof.
  intros Hx. rewrite <- (Int_part_IZR 0). now apply Int_part_mono.
Qed.

Lemma int_of_float_IZR (z : Z) : Py.int_of_float (IZR z) = z.
Proof.
  unfold Py.int_of_float.
  destruct (Rle_dec 0 (IZR z)).
  - apply Int_part_IZR.
  - rewrite <- opp_IZR, Int_part_IZR; lia.
Qed.

Lemma int_of_float_0 : Py.int_of_float 0 = 0%Z.
Proof. apply (int_of_float_IZR 0). Qed.

Lemma int_of_float_nonneg (x : R) :
  0 <= x -> Py.int_of_float x = Int_part x.
Proof.
  intros Hx; unfold Py.int_of_float.
  destruct (Rle_dec 0 x); [reflexivity | contradiction].
Qed.

(** The magnitude of a truncation is the floor of the magnitude. *)
Lemma int_of_float_abs (x : R) :
  Z.abs (Py.int_of_float x) = Int_part (Rabs x).
Proof.
  unfold Py.int_of_float.
  destruct (Rle_dec 0 x) as [Hx | Hx].
  - rewrite Rabs_right by lra.
    apply Z.abs_eq, Int_part_nonneg, Hx.
  - rewrite Rabs_left by lra.
    rewrite Z.abs_opp. apply Z.abs_eq, Int_part_nonneg. lra.
Qed.

Lemma int_of_float_abs_mono (x y : R) :
  Rabs x <= Rabs y ->
  (Z.abs (Py.int_of_float x) <= Z.abs (Py.int_of_float y))%Z.
Proof.
  intros H. rewrite !int_of_float_abs. now apply Int_part_mono.
Qed.

(** A truncation stays within any integer bound on the magnitude. *)
Lemma int_of_float_abs_le (x : R) (b : Z) :
  Rabs x <= IZR b -> (Z.abs (Py.int_of_float x) <= b)%Z.
Proof.
  intros H. rewrite int_of_float_abs.
  rewrite <- (Int_part_IZR b). now apply Int_part_mono.
Qed.

(** Truncating a value that is at least an integer gives at least that
    integer. *)
Lemma int_of_float_ge (x : R) (z : Z) :
  (0 <= z)%Z -> IZR z <= x -> (z <= Py.int_of_float x)%Z.
Proof.
  intros Hz Hx.
  assert (0 <= x) by (apply IZR_le in Hz; lra).
  rewrite int_of_float_nonneg by assumption.
  rewrite <- (Int_part_IZR z). now apply Int_part_mono.
Qed.

End Truncation.

(** ** Motion schedule and canvas *)

Section ParallaxFacts.

Import Parallax.
Open Scope R_scope.

Lemma intensity_mult_cases (intensity : string) :
  intensity_mult intensity = 0.5 \/ intensity_mult intensity = 1
  \/ intensity_mult intensity = 1.5.
Proof.
  unfold intensity_mult.
  destruct (String.eqb intensity "subtle"); [left; reflexivity |].
  destruct (String.eqb intensity "normal"); [right; left; lra |].
  destruct (String.eqb intensity "dramatic"); [right; right; reflexivity |].
  right; left; lra.
Qed.

Lemma max_speed_is_fg (intensity : string) :
  Rmax (fg_speed intensity) (bg_speed intensity) = fg_speed intensity.
Proof.
  unfold fg_speed, bg_speed. apply Rmax_left.
  destruct (intensity_mult_cases intensity) as [H | [H | H]]; rewrite H; lra.
Qed.

(** The padding margin is exactly three times the larger speed: 60, 120 or
    180 pixels. *)
Lemma pad_x_exact (intensity : string) :
  IZR (pad_x intensity) = 3 * Rmax (fg_speed intensity) (bg_speed intensity)
  /\ (60 <= pad_x intensity <= 180)%Z.
Proof.
  unfold pad_x. rewrite max_speed_is_fg. unfold fg_speed.
  destruct (intensity_mult_cases intensity) as [H | [H | H]]; rewrite H.
  - replace (40 * 0.5 * 3) with (IZR 60) by lra.
    rewrite int_of_float_IZR. split; [lra | lia].
  - replace (40 * 1 * 3) with (IZR 120) by lra.
    rewrite int_of_float_IZR. split; [lra | lia].
  - replace (40 * 1.5 * 3) with (IZR 180) by lra.
    rewrite int_of_float_IZR. split; [lra | lia].
Qed.

Lemma pad_y_is_pad_x (intensity : string) : pad_y intensity = pad_x intensity.
Proof. reflexivity. Qed.

(** Upscaling by 1.1 and truncating never shrinks a non-negative size. *)
Lemma scaled_ge_padded (n : Z) :
  (0 <= n)%Z -> (n <= Py.int_of_float (IZR n * bg_scale))%Z.
Proof.
  intros Hn. apply int_of_float_ge; [assumption |].
  apply IZR_le in Hn. unfold bg_scale. lra.
Qed.

Lemma bg_scaled_w_ge (width : Z) (intensity : string) :
  (0 <= width)%Z ->
  (width + 2 * pad_x intensity <= bg_scaled_w width intensity)%Z.
Proof.
  intros Hw. unfold bg_scaled_w.
  destruct (pad_x_exact intensity) as [_ Hp].
  assert (H : (0 <= padded_w width intensity)%Z) by (unfold padded_w; lia).
  apply scaled_ge_padded in H. unfold padded_w in *. lia.
Qed.

Lemma bg_scaled_h_ge (height : Z) (intensity : string) :
  (0 <= height)%Z ->
  (height + 2 * pad_y intensity <= bg_scaled_h height intensity)%Z.
Proof.
  intros Hh. rewrite pad_y_is_pad_x. apply (bg_scaled_w_ge height intensity Hh).
Qed.

(** *** The easing curve *)

Lemma ease_0 : ease_in_out_sine 0 = 0.
Proof. unfold ease_in_out_sine. rewrite Rmult_0_l, cos_0. lra. Qed.

Lemma ease_1 : ease_in_out_sine 1 = 1.
Proof. unfold ease_in_out_sine. rewrite Rmult_1_l, cos_PI. lra. Qed.

Lemma ease_range (t : R) : 0 <= ease_in_out_sine t <= 1.
Proof.
  unfold ease_in_out_sine. pose proof (COS_bound (t * PI)). lra.
Qed.

Lemma scaled_angle (t : R) : 0 <= t <= 1 -> 0 <= t * PI <= PI.
Proof. intros Ht. pose proof PI_RGT_0. nra. Qed.

Lemma ease_mono (s t : R) :
  0 <= s -> s <= t -> t <= 1 -> ease_in_out_sine s <= ease_in_out_sine t.
Proof.
  intros Hs Hst Ht. unfold ease_in_out_sine.
  assert (Hc : cos (t * PI) <= cos (s * PI)).
  { destruct (scaled_angle s) as [? ?]; [lra |].
    destruct (scaled_angle t) as [? ?]; [lra |].
    apply cos_decr_1; try assumption. pose proof PI_RGT_0. nra. }
  lra.
Qed.


(** *** Progress *)

Lemma progress_0 (total : Z) : progress 0 total = 0.
Proof. unfold progress. unfold Rdiv. apply Rmult_0_l. Qed.

Lemma progress_denominator_pos (total : Z) : 0 < IZR (Z.max (total - 1) 1).
Proof. apply IZR_lt. lia. Qed.

Lemma progress_range (frame_idx total : Z) :
  (0 <= frame_idx <= total - 1)%Z -> 0 <= progress frame_idx total <= 1.
Proof.
  intros [H0 H1]. unfold progress.
  pose proof (progress_denominator_pos total) as Hd.
  assert (Hi : 0 <= IZR frame_idx) by (apply IZR_le in H0; exact H0).
  assert (Hn : IZR frame_idx <= IZR (Z.max (total - 1) 1)) by (apply IZR_le; lia).
  split.
  - apply Rmult_le_pos; [assumption |]. left. now apply Rinv_0_lt_compat.
  - apply Rmult_le_reg_r with (IZR (Z.max (total - 1) 1)); [assumption |].
    unfold Rdiv. rewrite Rmult_assoc, Rinv_l by lra. lra.
Qed.

Lemma progress_mono (i j total : Z) :
  (i <= j)%Z -> progress i total <= progress j total.
Proof.
  intros Hij. unfold progress, Rdiv.
  apply Rmult_le_compat_r.
  - left. apply Rinv_0_lt_compat, progress_denominator_pos.
  - now apply IZR_le.
Qed.


Lemma eased_t_range (frame_idx total : Z) : 0 <= eased_t frame_idx total <= 1.
Proof. apply ease_range. Qed.

Lemma eased_t_0 (total : Z) : eased_t 0 total = 0.
Proof. unfold eased_t. rewrite progress_0. apply ease_0. Qed.

Lemma eased_t_mono (i j total : Z) :
  (0 <= i)%Z -> (i <= j)%Z -> (j <= total - 1)%Z ->
  eased_t i total <= eased_t j total.
Proof.
  intros H0 Hij Hj. unfold eased_t.
  destruct (progress_range i total) as [? ?]; [lia |].
  destruct (progress_range j total) as [? ?]; [lia |].
  apply ease_mono; try assumption. now apply progress_mono.
Qed.


End ParallaxFacts.

Section ParallaxClaims.

Import Parallax.
Open Scope R_scope.

Lemma offset_at_rest (c : R) : Py.int_of_float (c * 0) = 0%Z.
Proof. rewrite Rmult_0_r. apply int_of_float_0. Qed.

Lemma zoom_start_cases (zoom intensity : string) :
  zoom_start zoom intensity
  = if String.eqb zoom "out" then 1 + 0.15 * intensity_mult intensity else 1.
Proof.
  unfold zoom_start, zoom_range, zoom_amount.
  destruct (String.eqb zoom "in") eqn:Hin.
  - apply String.eqb_eq in Hin; subst zoom. simpl. lra.
  - destruct (String.eqb zoom "out"); simpl; lra.
Qed.

Lemma frame0_schedule_aux (zoom intensity : string) (total : Z) :
  current_zoom zoom intensity 0 total
  = (if String.eqb zoom "out" then 1 + 0.15 * intensity_mult intensity else 1)
  /\ eased_t 0 total = 0.
Proof.
  unfold current_zoom. rewrite eased_t_0, Rmult_0_r, Rplus_0_r.
  split; [apply zoom_start_cases | reflexivity].
Qed.

(** C2, as amended.  At frame index 0 the four pan offsets are 0 for every
    direction, intensity, zoom setting and frame count, and the zoom scale
    is [zoom_start]: 1.0 unless the zoom setting is "out", where the
    schedule starts zoomed in at 1 + 0.15 x intensity multiplier. *)
Theorem frame0_schedule (direction intensity zoom : string) (total : Z) :
  bg_offset_x direction intensity 0 total = 0%Z
  /\ bg_offset_y direction intensity 0 total = 0%Z
  /\ fg_offset_x direction intensity 0 total = 0%Z
  /\ fg_offset_y direction intensity 0 total = 0%Z
  /\ current_zoom zoom intensity 0 total
     = if String.eqb zoom "out" then 1 + 0.15 * intensity_mult intensity else 1.
Proof.
  unfold bg_offset_x, bg_offset_y, fg_offset_x, fg_offset_y.
  rewrite eased_t_0, !offset_at_rest.
  repeat split. apply frame0_schedule_aux.
Qed.

(** C2, as stated, fails for zoom "out": with normal intensity the first
    frame is scaled by 1.15. *)
Lemma frame0_zoom_out_is_scaled :
  current_zoom "out" "normal" 0 48 = 1.15
  /\ current_zoom "out" "normal" 0 48 <> 1.
Proof.
  destruct (frame0_schedule_aux "out" "normal" 48) as [H _].
  rewrite H. simpl. unfold intensity_mult. simpl. split; lra.
Qed.

(** C4.  For every intensity (the three named levels, and any other
    string, which the code treats as normal) and every output size, the
    Canvas is at least the output size plus twice three times the larger
    layer speed, in both axes. *)
Theorem canvas_covers_pan_margin (width height : Z) (intensity : string) :
  (0 <= width)%Z -> (0 <= height)%Z ->
  IZR width + 2 * (3 * Rmax (fg_speed intensity) (bg_speed intensity))
    <= IZR (bg_scaled_w width intensity)
  /\ IZR height + 2 * (3 * Rmax (fg_speed intensity) (bg_speed intensity))
    <= IZR (bg_scaled_h height intensity).
Proof.
  intros Hw Hh.
  destruct (pad_x_exact intensity) as [Hp _].
  pose proof (bg_scaled_w_ge width intensity Hw) as Hcw.
  pose proof (bg_scaled_h_ge height intensity Hh) as Hch.
  rewrite pad_y_is_pad_x in Hch.
  apply IZR_le in Hcw, Hch.
  rewrite plus_IZR, mult_IZR in Hcw, Hch.
  split; lra.
Qed.

Lemma canvas_covers_pan_margin_witness :
  IZR 512 + 2 * (3 * Rmax (fg_speed "dramatic") (bg_speed "dramatic"))
    <= IZR (bg_scaled_w 512 "dramatic")
  /\ IZR 288 + 2 * (3 * Rmax (fg_speed "dramatic") (bg_speed "dramatic"))
    <= IZR (bg_scaled_h 288 "dramatic").
Proof. apply (canvas_covers_pan_margin 512 288 "dramatic"); lia. Defined.

(** The background never pans by more than 23 pixels. *)
Lemma bg_offset_bound (d : Z) (intensity : string) (e : R) :
  (-1 <= d <= 1)%Z -> 0 <= e <= 1 ->
  (Z.abs (Py.int_of_float (IZR d * bg_speed intensity * e)) <= 23)%Z.
Proof.
  intros Hd He. apply int_of_float_abs_le.
  assert (Hs : 0 <= bg_speed intensity <= 22.5).
  { unfold bg_speed.
    destruct (intensity_mult_cases intensity) as [H | [H | H]]; rewrite H; lra. }
  assert (Hd' : -1 <= IZR d <= 1).
  { destruct Hd as [Hl Hu]. apply IZR_le in Hl, Hu. lra. }
  set (c := IZR d * bg_speed intensity).
  assert (Hc : -22.5 <= c <= 22.5) by (subst c; nra).
  apply Rabs_le. nra.
Qed.

Lemma direction_vector_range (direction : string) :
  (-1 <= fst (direction_vector direction) <= 1)%Z
  /\ (-1 <= snd (direction_vector direction) <= 1)%Z.
Proof.
  unfold direction_vector.
  repeat match goal with
         | |- context [String.eqb ?a ?b] => destruct (String.eqb a b)
         end; simpl; lia.
Qed.

(** C5.  Before the clamp, the crop corner already lies in
    [0, canvas - output] on both axes, so the clamp returns it unchanged:
    the crop rectangle is inside the Canvas for every frame index,
    direction, intensity and zoom setting (the zoom setting plays no part
    in the crop). *)
Theorem crop_clamp_is_identity (width height : Z)
    (direction intensity : string) (frame_idx total : Z) :
  (0 <= width)%Z -> (0 <= height)%Z ->
  let cx := crop_x width direction intensity frame_idx total in
  let cy := crop_y height direction intensity frame_idx total in
  clamp_crop_x width intensity cx = cx
  /\ clamp_crop_y height intensity cy = cy
  /\ (0 <= cx /\ cx + width <= bg_scaled_w width intensity)%Z
  /\ (0 <= cy /\ cy + height <= bg_scaled_h height intensity)%Z.
Proof.
  intros Hw Hh cx cy.
  destruct (pad_x_exact intensity) as [_ Hp].
  pose proof (bg_scaled_w_ge width intensity Hw) as Hcw.
  pose proof (bg_scaled_h_ge height intensity Hh) as Hch.
  rewrite pad_y_is_pad_x in Hch.
  destruct (direction_vector_range direction) as [Hdx Hdy].
  pose proof (bg_offset_bound _ intensity _ Hdx (eased_t_range frame_idx total)) as Hox.
  pose proof (bg_offset_bound _ intensity _ Hdy (eased_t_range frame_idx total)) as Hoy.
  fold (bg_offset_x direction intensity frame_idx total) in Hox.
  fold (bg_offset_y direction intensity frame_idx total) in Hoy.
  subst cx cy.
  unfold clamp_crop_x, clamp_crop_y, crop_x, crop_y,
    bg_center_offset_x, bg_center_offset_y.
  Z.div_mod_to_equations. lia.
Qed.

Lemma crop_clamp_is_identity_witness :
  let cx := crop_x 640 "left" "subtle" 7 48 in
  let cy := crop_y 480 "left" "subtle" 7 48 in
  clamp_crop_x 640 "subtle" cx = cx
  /\ clamp_crop_y 480 "subtle" cy = cy
  /\ (0 <= cx /\ cx + 640 <= bg_scaled_w 640 "subtle")%Z
  /\ (0 <= cy /\ cy + 480 <= bg_scaled_h 480 "subtle")%Z.
Proof. apply (crop_clamp_is_identity 640 480 "left" "subtle" 7 48); lia. Defined.

(** *** Zoom *)

Lemma zoom_amount_range (intensity : string) :
  0.075 <= zoom_amount intensity <= 0.225.
Proof.
  unfold zoom_amount.
  destruct (intensity_mult_cases intensity) as [H | [H | H]]; rewrite H; lra.
Qed.

(** The zoom scale as a function of the eased progress, by zoom setting. *)
Lemma current_zoom_cases (zoom intensity : string) (frame_idx total : Z) :
  current_zoom zoom intensity frame_idx total - 1
  = if String.eqb zoom "in"
    then zoom_amount intensity * eased_t frame_idx total
    else if String.eqb zoom "out"
    then zoom_amount intensity * (1 - eased_t frame_idx total)
    else 0.
Proof.
  unfold current_zoom, zoom_start, zoom_end, zoom_range.
  destruct (String.eqb zoom "in"); [simpl; lra |].
  destruct (String.eqb zoom "out"); simpl; lra.
Qed.

Lemma current_zoom_ge_1 (zoom intensity : string) (frame_idx total : Z) :
  1 <= current_zoom zoom intensity frame_idx total.
Proof.
  pose proof (current_zoom_cases zoom intensity frame_idx total) as H.
  pose proof (zoom_amount_range intensity) as Ha.
  pose proof (eased_t_range frame_idx total) as He.
  destruct (String.eqb zoom "in"); [nra |].
  destruct (String.eqb zoom "out"); [nra | lra].
Qed.

Lemma zoomed_dim_ge (dim : Z) (z : R) :
  (0 <= dim)%Z -> 1 <= z -> (dim <= zoomed_dim dim z)%Z.
Proof.
  intros Hd Hz. unfold zoomed_dim.
  apply int_of_float_ge; [assumption |].
  apply IZR_le in Hd. nra.
Qed.

Lemma even_dim_spec (orig : Z) :
  Z.even (even_dim orig) = true
  /\ (even_dim orig <= orig < even_dim orig + 2)%Z.
Proof.
  unfold even_dim. split.
  - rewrite Z.even_spec. exists (orig / 2)%Z.
    pose proof (Z.div_mod orig 2). lia.
  - pose proof (Z.mod_pos_bound orig 2). lia.
Qed.

(** C10.  Every frame has the output dimensions, the source size rounded
    down to even numbers, for every direction, intensity, zoom setting and
    frame index; the zoom scale is never below 1.0, so the rescaled frame
    is at least as large as the output and the centred crop window lies
    inside it. *)
Theorem frame_has_output_dimensions (orig_width orig_height : Z)
    (direction intensity zoom : string) (frame_idx total : Z) :
  (0 <= orig_width)%Z -> (0 <= orig_height)%Z ->
  let width := even_dim orig_width in
  let height := even_dim orig_height in
  let z := current_zoom zoom intensity frame_idx total in
  render_frame orig_width orig_height direction intensity zoom frame_idx total
    = mkImage width height
  /\ (Z.even width = true /\ width <= orig_width < width + 2)%Z
  /\ (Z.even height = true /\ height <= orig_height < height + 2)%Z
  /\ 1 <= z
  /\ (0 <= (zoomed_dim width z - width) / 2
      /\ (zoomed_dim width z - width) / 2 + width <= zoomed_dim width z)%Z
  /\ (0 <= (zoomed_dim height z - height) / 2
      /\ (zoomed_dim height z - height) / 2 + height <= zoomed_dim height z)%Z.
Proof.
  intros Hw Hh width height z.
  pose proof (even_dim_spec orig_width) as [Hew Hrw].
  pose proof (even_dim_spec orig_height) as [Heh Hrh].
  pose proof (current_zoom_ge_1 zoom intensity frame_idx total) as Hz.
  fold z in Hz. fold width in Hew, Hrw. fold height in Heh, Hrh.
  assert (H0w : (0 <= width)%Z).
  { subst width. unfold even_dim. pose proof (Z.mod_pos_bound orig_width 2). 
    pose proof (Z.div_mod orig_width 2). pose proof (Z.div_pos orig_width 2). lia. }
  assert (H0h : (0 <= height)%Z).
  { subst height. unfold even_dim. pose proof (Z.mod_pos_bound orig_height 2).
    pose proof (Z.div_mod orig_height 2). pose proof (Z.div_pos orig_height 2). lia. }
  pose proof (zoomed_dim_ge width z H0w Hz) as Hzw.
  pose proof (zoomed_dim_ge height z H0h Hz) as Hzh.
  split; [| repeat split; try assumption; try tauto;
            Z.div_mod_to_equations; lia].
  unfold render_frame. fold width height z.
  destruct (Req_dec_T z 1.0); unfold convert, paste, crop, resize; simpl;
    f_equal; lia.
Qed.

Lemma frame_has_output_dimensions_witness :
  render_frame 641 479 "right" "normal" "out" 5 120
    = mkImage 640 478.
Proof.
  apply (frame_has_output_dimensions 641 479 "right" "normal" "out" 5 120); lia.
Defined.

(** *** Monotonicity along the frame sequence *)

Lemma offset_magnitude_mono (c e1 e2 : R) :
  0 <= e1 -> e1 <= e2 ->
  (Z.abs (Py.int_of_float (c * e1)) <= Z.abs (Py.int_of_float (c * e2)))%Z.
Proof.
  intros H1 H12. apply int_of_float_abs_mono.
  rewrite !Rabs_mult, (Rabs_right e1), (Rabs_right e2) by lra.
  apply Rmult_le_compat_l; [apply Rabs_pos | assumption].
Qed.

Lemma progress_last (total : Z) :
  (2 <= total)%Z -> progress (total - 1) total = 1.
Proof.
  intros Ht. unfold progress. rewrite Z.max_l by lia.
  apply Rinv_r. apply not_0_IZR. lia.
Qed.

Lemma eased_t_last (total : Z) : (2 <= total)%Z -> eased_t (total - 1) total = 1.
Proof. intros Ht. unfold eased_t. rewrite progress_last by assumption. apply ease_1. Qed.

(** C6, as amended.  Along the frames 0 .. N-1 the eased progress and the
    magnitudes of the four pan offsets are non-decreasing, for every
    direction, intensity and zoom setting; the distance of the zoom scale
    from 1.0 is non-decreasing for every zoom setting but "out", where it
    is non-increasing (the schedule runs from 1 + delta down to 1.0). *)
Theorem schedule_magnitudes_monotone (direction intensity zoom : string)
    (i j total : Z) :
  (0 <= i)%Z -> (i <= j)%Z -> (j <= total - 1)%Z ->
  eased_t i total <= eased_t j total
  /\ (Z.abs (bg_offset_x direction intensity i total)
      <= Z.abs (bg_offset_x direction intensity j total))%Z
  /\ (Z.abs (bg_offset_y direction intensity i total)
      <= Z.abs (bg_offset_y direction intensity j total))%Z
  /\ (Z.abs (fg_offset_x direction intensity i total)
      <= Z.abs (fg_offset_x direction intensity j total))%Z
  /\ (Z.abs (fg_offset_y direction intensity i total)
      <= Z.abs (fg_offset_y direction intensity j total))%Z
  /\ (if String.eqb zoom "out"
      then Rabs (current_zoom zoom intensity j total - 1)
           <= Rabs (current_zoom zoom intensity i total - 1)
      else Rabs (current_zoom zoom intensity i total - 1)
           <= Rabs (current_zoom zoom intensity j total - 1)).
Proof.
  intros H0 Hij Hj.
  pose proof (eased_t_mono i j total H0 Hij Hj) as He.
  pose proof (eased_t_range i total) as Hi.
  pose proof (eased_t_range j total) as Hjr.
  split; [assumption |].
  unfold bg_offset_x, bg_offset_y, fg_offset_x, fg_offset_y.
  repeat (split; [apply offset_magnitude_mono; lra |]).
  rewrite !current_zoom_cases.
  pose proof (zoom_amount_range intensity) as Ha.
  destruct (String.eqb zoom "in") eqn:Hin.
  - apply String.eqb_eq in Hin; subst zoom. simpl.
    rewrite !Rabs_right by nra. nra.
  - destruct (String.eqb zoom "out").
    + rewrite !Rabs_right by nra. nra.
    + lra.
Qed.

Lemma schedule_magnitudes_monotone_witness :
  (Z.abs (fg_offset_x "right" "dramatic" 3 48)
   <= Z.abs (fg_offset_x "right" "dramatic" 20 48))%Z.
Proof.
  apply (schedule_magnitudes_monotone "right" "dramatic" "in" 3 20 48); lia.
Defined.

(** C6, as stated, fails for zoom "out": over two frames at normal
    intensity the distance of the zoom scale from 1.0 falls from 0.15 at
    frame 0 to 0 at frame 1. *)
Lemma zoom_out_distance_decreases :
  Rabs (current_zoom "out" "normal" 0 2 - 1) = 0.15
  /\ Rabs (current_zoom "out" "normal" 1 2 - 1) = 0
  /\ ~ (Rabs (current_zoom "out" "normal" 0 2 - 1)
        <= Rabs (current_zoom "out" "normal" 1 2 - 1)).
Proof.
  rewrite !current_zoom_cases. simpl.
  rewrite eased_t_0.
  change (eased_t 1 2) with (eased_t (2 - 1) 2).
  rewrite (eased_t_last 2) by lia.
  unfold zoom_amount, intensity_mult. simpl.
  replace (0.15 * 1.0 * (1 - 0)) with 0.15 by lra.
  replace (0.15 * 1.0 * (1 - 1)) with 0 by lra.
  rewrite Rabs_R0, Rabs_right by lra.
  repeat split; lra.
Qed.



End ParallaxClaims.

(** ** Depth normalisation *)

Section DepthFacts.

Import Depth.
Open Scope Q_scope.

(** [fold_left Qmin l x] is the least element of [x :: l]. *)
Lemma fold_min_spec (l : list Q) : forall x,
  (forall y, In y (x :: l) -> fold_left Qmin l x <= y)
  /\ (exists y, In y (x :: l) /\ fold_left Qmin l x == y).
Proof.
  induction l as [| a l IH]; intros x; simpl.
  - split.
    + intros y [<- | []]. apply Qle_refl.
    + exists x. split; [now left | reflexivity].
  - destruct (IH (Qmin x a)) as [Hlb [y [Hin Heq]]]. split.
    + intros y' [<- | [<- | Hy]].
      * eapply Qle_trans; [apply Hlb; now left | apply Q.le_min_l].
      * eapply Qle_trans; [apply Hlb; now left | apply Q.le_min_r].
      * apply Hlb. now right.
    + destruct Hin as [<- | Hin].
      * destruct (Q.min_dec x a) as [H | H].
        -- exists x. split; [now left | now rewrite Heq].
        -- exists a. split; [right; now left | now rewrite Heq].
      * exists y. split; [right; now right | assumption].
Qed.

(** [fold_left Qmax l x] is the greatest element of [x :: l]. *)
Lemma fold_max_spec (l : list Q) : forall x,
  (forall y, In y (x :: l) -> y <= fold_left Qmax l x)
  /\ (exists y, In y (x :: l) /\ fold_left Qmax l x == y).
Proof.
  induction l as [| a l IH]; intros x; simpl.
  - split.
    + intros y [<- | []]. apply Qle_refl.
    + exists x. split; [now left | reflexivity].
  - destruct (IH (Qmax x a)) as [Hub [y [Hin Heq]]]. split.
    + intros y' [<- | [<- | Hy]].
      * eapply Qle_trans; [apply Q.le_max_l | apply Hub; now left].
      * eapply Qle_trans; [apply Q.le_max_r | apply Hub; now left].
      * apply Hub. now right.
    + destruct Hin as [<- | Hin].
      * destruct (Q.max_dec x a) as [H | H].
        -- exists x. split; [now left | now rewrite Heq].
        -- exists a. split; [right; now left | now rewrite Heq].
      * exists y. split; [right; now right | assumption].
Qed.



Lemma eps_pos : 0 < eps.
Proof. reflexivity. Qed.

(** The rescaling map is non-decreasing whenever [lo <= hi]. *)
Lemma rescale_mono (lo hi a b : Q) :
  lo <= hi -> a <= b ->
  (a - lo) / (hi - lo + eps) <= (b - lo) / (hi - lo + eps).
Proof.
  intros Hlh Hab. unfold Qdiv.
  apply Qmult_le_compat_r.
  - lra.
  - apply Qinv_le_0_compat. pose proof eps_pos. lra.
Qed.

Lemma rescale_lo (lo hi : Q) : (lo - lo) / (hi - lo + eps) == 0.
Proof. unfold Qdiv. ring. Qed.

(** The image of the maximum: short of 1 by [eps / (range + eps)]. *)
Lemma rescale_hi (lo hi : Q) :
  lo <= hi ->
  let top := (hi - lo) / (hi - lo + eps) in
  0 <= top /\ top < 1 /\ (1 <= hi - lo -> 1 - eps <= top).
Proof.
  intros Hlh top.
  pose proof eps_pos as He.
  assert (Hden : 0 < hi - lo + eps) by lra.
  assert (Hmul : top * (hi - lo + eps) == hi - lo).
  { subst top. unfold Qdiv. rewrite <- Qmult_assoc.
    rewrite (Qmult_comm (/ _)), Qmult_inv_r by lra. ring. }
  unfold eps in *. repeat split; [nra | nra | intros Hr; nra].
Qed.


Lemma concat_np_array (image : array2 Z) :
  concat (np_array image) = map inject_Z (concat image).
Proof. unfold np_array. symmetry. apply concat_map. Qed.

Lemma concat_rescaled (f : Q -> Q) (a : array2 Q) :
  concat (map (map f) a) = map f (concat a).
Proof. symmetry. apply concat_map. Qed.




(** *** Layer masks *)

Lemma threshold_nth (n i : nat) :
  (i <= n)%nat ->
  nth i (thresholds n) 0 = inject_Z (Z.of_nat i) / inject_Z (Z.of_nat n).
Proof.
  intros Hi. unfold thresholds.
  set (g := fun j : nat => inject_Z (Z.of_nat j) / inject_Z (Z.of_nat n)).
  rewrite (nth_indep _ 0 (g O)) by (rewrite length_map, length_seq; lia).
  rewrite map_nth, seq_nth by lia. reflexivity.
Qed.

(** A threshold [i / n] lies at or below [d] exactly when [i] is at most
    the integer part of [d * n]. *)
Lemma threshold_le_iff (n : nat) (i : Z) (d : Q) :
  (1 <= n)%nat ->
  inject_Z i / inject_Z (Z.of_nat n) <= d
  <-> (i <= Qfloor (d * inject_Z (Z.of_nat n)))%Z.
Proof.
  intros Hn.
  assert (HN : 0 < inject_Z (Z.of_nat n)).
  { change 0 with (inject_Z 0). rewrite <- Zlt_Qlt. lia. }
  split.
  - intros H.
    assert (H' : inject_Z i <= d * inject_Z (Z.of_nat n)).
    { apply (Qmult_le_compat_r _ _ (inject_Z (Z.of_nat n))) in H; [| lra].
      unfold Qdiv in H.
      rewrite <- Qmult_assoc, (Qmult_comm (/ _)), Qmult_inv_r, Qmult_1_r in H by lra.
      exact H. }
    apply Qfloor_resp_le in H'. now rewrite Qfloor_Z in H'.
  - intros H. apply Qle_shift_div_r; [exact HN |].
    eapply Qle_trans; [| apply Qfloor_le]. now rewrite <- Zle_Qle.
Qed.

Lemma threshold_leb (n : nat) (i : Z) (d : Q) :
  (1 <= n)%nat ->
  Qle_bool (inject_Z i / inject_Z (Z.of_nat n)) d
  = (i <=? Qfloor (d * inject_Z (Z.of_nat n)))%Z.
Proof.
  intros Hn. apply eq_true_iff_eq.
  rewrite Qle_bool_iff, Z.leb_le. now apply threshold_le_iff.
Qed.

Lemma depth_floor_range (n : nat) (d : Q) :
  (1 <= n)%nat -> 0 <= d -> d <= 1 ->
  (0 <= Qfloor (d * inject_Z (Z.of_nat n)) <= Z.of_nat n)%Z.
Proof.
  intros Hn H0 H1.
  assert (HN : 0 < inject_Z (Z.of_nat n)).
  { change 0 with (inject_Z 0). rewrite <- Zlt_Qlt. lia. }
  split.
  - rewrite <- (Qfloor_Z 0). apply Qfloor_resp_le.
    change (inject_Z 0) with 0. nra.
  - rewrite <- (Qfloor_Z (Z.of_nat n)) at 2. apply Qfloor_resp_le. nra.
Qed.

(** At a pixel with depth in [0, 1] exactly one of the [n] layers holds
    1. *)
Lemma mask_value_partition (n : nat) (d : Q) :
  (1 <= n)%nat -> 0 <= d -> d <= 1 ->
  exists k, (k < n)%nat /\
    forall i, (i < n)%nat ->
      mask_value n i d = if Nat.eqb i k then 1 else 0.
Proof.
  intros Hn H0 H1.
  pose proof (depth_floor_range n d Hn H0 H1) as HF.
  set (F := Qfloor (d * inject_Z (Z.of_nat n))) in *.
  exists (Z.to_nat (Z.min F (Z.of_nat n - 1))). split; [lia |].
  intros i Hi. unfold mask_value.
  rewrite !threshold_nth by lia.
  rewrite !threshold_leb by assumption. fold F.
  unfold Qlt_bool. rewrite threshold_leb by assumption. fold F.
  destruct (Nat.eqb_spec i (n - 1)) as [Hlast | Hlast].
  - assert (Hd : Qle_bool d (inject_Z (Z.of_nat (S i)) / inject_Z (Z.of_nat n)) = true).
    { apply Qle_bool_iff. replace (S i) with n by lia.
      assert (HN : 0 < inject_Z (Z.of_nat n)).
      { change 0 with (inject_Z 0). rewrite <- Zlt_Qlt. lia. }
      apply Qle_shift_div_l; [exact HN | nra]. }
    rewrite Hd, andb_true_r.
    destruct (Z.leb_spec (Z.of_nat i) F); destruct (Nat.eqb_spec i (Z.to_nat (Z.min F (Z.of_nat n - 1))));
      try reflexivity; exfalso; lia.
  - destruct (Z.leb_spec (Z.of_nat i) F); destruct (Z.leb_spec (Z.of_nat (S i)) F);
      destruct (Nat.eqb_spec i (Z.to_nat (Z.min F (Z.of_nat n - 1))));
      try reflexivity; exfalso; lia.
Qed.

Lemma at2_map {A B : Type} (f : A -> B) (a : array2 A) (r c : nat) :
  at2 (map (map f) a) r c = option_map f (at2 a r c).
Proof.
  unfold at2. rewrite nth_error_map.
  destruct (nth_error a r) as [row |]; simpl; [apply nth_error_map | reflexivity].
Qed.

Lemma at2_In {A : Type} (a : array2 A) (r c : nat) (x : A) :
  at2 a r c = Some x -> exists row, In row a /\ In x row.
Proof.
  unfold at2. destruct (nth_error a r) as [row |] eqn:Hr; [| discriminate].
  intros Hc. exists row. split; eapply nth_error_In; eassumption.
Qed.

(** C9.  For a depth map with all values in [0, 1] and [n >= 1] layers,
    [create_layer_masks] returns [n] masks, and at every pixel exactly one
    of them holds 1 while all the others hold 0. *)
Theorem layer_masks_partition (depth_map : array2 Q) (n : nat) :
  (1 <= n)%nat ->
  Forall (Forall (fun d => 0 <= d /\ d <= 1)) depth_map ->
  length (create_layer_masks depth_map n) = n
  /\ forall r c d, at2 depth_map r c = Some d ->
       exists k, (k < n)%nat /\
         forall i, (i < n)%nat ->
           exists m, nth_error (create_layer_masks depth_map n) i = Some m
                     /\ at2 m r c = Some (if Nat.eqb i k then 1 else 0).
Proof.
  intros Hn Hrange. unfold create_layer_masks. split.
  - now rewrite length_map, length_seq.
  - intros r c d Hd.
    destruct (at2_In _ _ _ _ Hd) as [row [Hrow Hin]].
    rewrite Forall_forall in Hrange. specialize (Hrange row Hrow).
    rewrite Forall_forall in Hrange. destruct (Hrange d Hin) as [H0 H1].
    destruct (mask_value_partition n d Hn H0 H1) as [k [Hk Hmask]].
    exists k. split; [exact Hk |]. intros i Hi.
    exists (map (map (mask_value n i)) depth_map). split.
    + rewrite nth_error_map, nth_error_seq.
      destruct (Nat.ltb_spec i n); [reflexivity | lia].
    + rewrite at2_map, Hd. simpl. now rewrite Hmask.
Qed.

Lemma layer_masks_partition_witness :
  let depth_map := [[0; 1 # 2]; [1; 1 # 3]] in
  length (create_layer_masks depth_map 3) = 3%nat
  /\ forall r c d, at2 depth_map r c = Some d ->
       exists k, (k < 3)%nat /\
         forall i, (i < 3)%nat ->
           exists m, nth_error (create_layer_masks depth_map 3) i = Some m
                     /\ at2 m r c = Some (if Nat.eqb i k then 1 else 0).
Proof.
  apply (layer_masks_partition [[0; 1 # 2]; [1; 1 # 3]] 3).
  - lia.
  - repeat constructor; lra.
Defined.

(** The three masks of a 2x2 depth map, evaluated. *)
Example layer_masks_example :
  create_layer_masks [[0; 1 # 2]; [1; 1 # 3]] 3
  = [ [[1; 0]; [0; 0]];
      [[0; 1]; [0; 1]];
      [[0; 0]; [1; 0]] ].
Proof. reflexivity. Qed.

End DepthFacts.

(** ** Dilation of the inpainting mask *)

Section MorphologyFacts.

Import Morphology.
Open Scope Z_scope.

Lemma nth_map_seq {A : Type} (g : nat -> A) (len i : nat) (d : A) :
  (i < len)%nat -> nth i (map g (seq 0 len)) d = g i.
Proof.
  intros Hi.
  rewrite (nth_indep _ d (g O)) by (rewrite length_map, length_seq; exact Hi).
  rewrite map_nth, seq_nth by exact Hi. reflexivity.
Qed.

Lemma fold_max_ge (l : list Z) (x : Z) :
  In x l -> x <= fold_right Z.max 0 l.
Proof.
  induction l as [| a l IH]; simpl; [tauto |].
  intros [-> | Hin]; [lia | specialize (IH Hin); lia].
Qed.

Lemma fold_max_binary (l : list Z) :
  (forall x, In x l -> x = 0 \/ x = 255) ->
  fold_right Z.max 0 l = 0 \/ fold_right Z.max 0 l = 255.
Proof.
  induction l as [| a l IH]; simpl; intros H; [now left |].
  destruct (H a (or_introl eq_refl)); destruct IH as [IH | IH];
    try (intros x Hx; apply H; now right); lia.
Qed.

(** The centre of the kernel is part of the window. *)
Lemma window_max_ge_centre (m : mask) (r c : Z) : pixel m r c <= window_max m r c.
Proof.
  unfold window_max. apply fold_max_ge.
  apply in_flat_map. exists 0. split; [unfold kernel_offsets; simpl; tauto |].
  rewrite <- (Z.add_0_r r) at 1. rewrite <- (Z.add_0_r c) at 1.
  apply (in_map (fun dc => pixel m (r + 0) (c + dc))).
  unfold kernel_offsets; simpl; tauto.
Qed.

Lemma dilate1_length (m : mask) : length (dilate1 m) = length m.
Proof. unfold dilate1. now rewrite length_map, length_seq. Qed.

Lemma dilate1_row (m : mask) (r : nat) :
  (r < length m)%nat ->
  nth r (dilate1 m) []
  = map (fun c => window_max m (Z.of_nat r) (Z.of_nat c))
        (seq 0 (length (nth r m []))).
Proof. intros Hr. unfold dilate1. now rewrite nth_map_seq. Qed.

Lemma dilate1_in_image (m : mask) (r c : nat) :
  in_image m r c -> in_image (dilate1 m) r c.
Proof.
  intros [Hr Hc]. split.
  - now rewrite dilate1_length.
  - rewrite dilate1_row by exact Hr. now rewrite length_map, length_seq.
Qed.

Lemma pixel_of_nat (m : mask) (r c : nat) :
  pixel m (Z.of_nat r) (Z.of_nat c) = nth c (nth r m []) 0.
Proof.
  unfold pixel.
  destruct (Z.leb_spec 0 (Z.of_nat r)); [| lia].
  destruct (Z.leb_spec 0 (Z.of_nat c)); [| lia].
  simpl. now rewrite !Nat2Z.id.
Qed.

Lemma dilate1_pixel (m : mask) (r c : nat) :
  in_image m r c ->
  pixel (dilate1 m) (Z.of_nat r) (Z.of_nat c)
  = window_max m (Z.of_nat r) (Z.of_nat c).
Proof.
  intros [Hr Hc]. rewrite pixel_of_nat, dilate1_row by exact Hr.
  now rewrite nth_map_seq.
Qed.

Lemma dilate_grows (n : nat) : forall (m : mask) (r c : nat),
  in_image m r c ->
  in_image (dilate m n) r c
  /\ pixel m (Z.of_nat r) (Z.of_nat c) <= pixel (dilate m n) (Z.of_nat r) (Z.of_nat c).
Proof.
  induction n as [| n IH]; intros m r c Hin; simpl.
  - split; [exact Hin | lia].
  - destruct (IH (dilate1 m) r c (dilate1_in_image m r c Hin)) as [Hin' Hle].
    split; [exact Hin' |].
    rewrite dilate1_pixel in Hle by exact Hin.
    pose proof (window_max_ge_centre m (Z.of_nat r) (Z.of_nat c)). lia.
Qed.

Lemma pixel_binary (m : mask) (r c : Z) :
  binary m -> pixel m r c = 0 \/ pixel m r c = 255.
Proof.
  intros Hb. unfold pixel.
  destruct ((0 <=? r) && (0 <=? c)); [| now left].
  destruct (nth_in_or_default (Z.to_nat r) m []) as [Hrow | ->].
  - unfold binary in Hb. rewrite Forall_forall in Hb. specialize (Hb _ Hrow).
    destruct (nth_in_or_default (Z.to_nat c) (nth (Z.to_nat r) m []) 0) as [Hv | ->];
      [| now left].
    rewrite Forall_forall in Hb. now apply Hb.
  - destruct (Z.to_nat c); now left.
Qed.

Lemma window_max_binary (m : mask) (r c : Z) :
  binary m -> window_max m r c = 0 \/ window_max m r c = 255.
Proof.
  intros Hb. unfold window_max. apply fold_max_binary.
  intros x Hx. apply in_flat_map in Hx. destruct Hx as [dr [_ Hx]].
  apply in_map_iff in Hx. destruct Hx as [dc [<- _]].
  now apply pixel_binary.
Qed.

Lemma dilate1_binary (m : mask) : binary m -> binary (dilate1 m).
Proof.
  intros Hb. unfold binary, dilate1.
  apply Forall_map, Forall_forall. intros r _.
  apply Forall_map, Forall_forall. intros c _.
  now apply window_max_binary.
Qed.

Lemma dilate_binary (n : nat) : forall m, binary m -> binary (dilate m n).
Proof.
  induction n as [| n IH]; intros m Hb; simpl; [exact Hb |].
  apply IH, dilate1_binary, Hb.
Qed.

(** C7.  For a binary mask, the inpainting mask (7x7 kernel, 4 passes) is
    again a binary mask of the same shape, pixel-wise greater than or equal
    to the mask it was dilated from: a pixel set in the hard mask is set in
    the inpainting mask. *)
Theorem dilation_covers_mask (hard_mask : mask) (r c : nat) :
  binary hard_mask -> in_image hard_mask r c ->
  binary (inpaint_mask hard_mask)
  /\ in_image (inpaint_mask hard_mask) r c
  /\ pixel hard_mask (Z.of_nat r) (Z.of_nat c)
     <= pixel (inpaint_mask hard_mask) (Z.of_nat r) (Z.of_nat c)
  /\ (pixel hard_mask (Z.of_nat r) (Z.of_nat c) = 255 ->
      pixel (inpaint_mask hard_mask) (Z.of_nat r) (Z.of_nat c) = 255).
Proof.
  intros Hb Hin. unfold inpaint_mask.
  pose proof (dilate_binary 4 hard_mask Hb) as Hb'.
  destruct (dilate_grows 4 hard_mask r c Hin) as [Hin' Hle].
  repeat split; try assumption; try apply Hin'.
  intros Hset.
  destruct (pixel_binary (dilate hard_mask 4) (Z.of_nat r) (Z.of_nat c) Hb'); lia.
Qed.

Lemma dilation_covers_mask_witness :
  pixel [[0; 255; 0]; [0; 0; 0]] 0 1
  <= pixel (inpaint_mask [[0; 255; 0]; [0; 0; 0]]) 0 1.
Proof.
  apply (dilation_covers_mask [[0; 255; 0]; [0; 0; 0]] 0 1).
  - unfold binary. repeat (first [apply Forall_nil | apply Forall_cons]); auto.
  - split; simpl; lia.
Defined.

(** One pass already spreads a set pixel over its neighbourhood. *)
Example dilate1_example :
  dilate1 [[0; 255; 0]; [0; 0; 0]] = [[255; 255; 255]; [255; 255; 255]].
Proof. reflexivity. Qed.

End MorphologyFacts.

(** ** The process entry point *)

Section EntryFacts.

Import Entry.
Open Scope Z_scope.

Variable json_loads : string -> exn + json.
Variable generate_parallax_video :
  string -> string -> value -> value -> value -> value -> value -> value ->
  exn + string.

(** A failure of the pipeline itself is caught and reported as the JSON
    failure line, with exit status 1. *)
Lemma pipeline_failure_is_reported
    (prog input_path output_path : string) (e : exn) :
  (forall d i t f n z,
      generate_parallax_video input_path output_path d i t f n z = inl e) ->
  main json_loads generate_parallax_video [prog; input_path; output_path]
  = mkProcess [Failure (str e)] [] 1.
Proof. intros H. simpl. now rewrite H. Qed.

(** C1, on the code.  When the third argument does not decode, the
    exception of [json.loads] is raised before the [try] block is entered:
    the process ends with status 1 and a traceback, and prints no JSON
    failure line. *)
Theorem malformed_options_escape_handler
    (prog input_path output_path options_json : string) (rest : list string)
    (e : exn) :
  json_loads options_json = inl e ->
  let p := main json_loads generate_parallax_video
             (prog :: input_path :: output_path :: options_json :: rest) in
  p = uncaught e
  /\ exit_code p = 1 /\ stdout p = [] /\ stderr p = [Traceback e]
  /\ ~ reports_failure p.
Proof.
  intros Hloads p. subst p. simpl. rewrite Hloads.
  repeat split. intros [msg Hmsg]. discriminate Hmsg.
Qed.

End EntryFacts.

Section EntryRun.

Open Scope string_scope.

Lemma malformed_options_escape_handler_witness :
  let p := Entry.main Entry.loads_empty_object Entry.pipeline_ok
             ["depth_parallax.py"; "in.png"; "out.mp4"; "{bad"] in
  Entry.exit_code p = 1%Z /\ Entry.stdout p = [] /\ ~ Entry.reports_failure p.
Proof.
  destruct (malformed_options_escape_handler Entry.loads_empty_object
              Entry.pipeline_ok "depth_parallax.py" "in.png" "out.mp4" "{bad" []
              (Entry.JSONDecodeError
                 "Expecting property name enclosed in double quotes")
              eq_refl) as [_ [H1 [H2 [_ H3]]]].
  repeat split; assumption.
Defined.

(** The same command line with a well-formed option string goes through. *)
Example well_formed_options_run :
  Entry.main Entry.loads_empty_object Entry.pipeline_ok
    ["depth_parallax.py"; "in.png"; "out.mp4"; "{}"]
  = Entry.mkProcess [Entry.Success "out.mp4"] [] 0.
Proof. reflexivity. Qed.

End EntryRun.


(** * Further properties of the pipeline *)

(** ** Layer speeds and pan offsets *)

Section ParallaxMore.

Import Parallax.
Open Scope R_scope.

Lemma speeds_ordered (intensity : string) :
  0 < bg_speed intensity /\ bg_speed intensity < fg_speed intensity.
Proof.
  unfold bg_speed, fg_speed.
  destruct (intensity_mult_cases intensity) as [H | [H | H]]; rewrite H; lra.
Qed.

(** X1.  The foreground always moves faster than the background, by the fixed
    ratio 8 : 3, and both speeds are positive, whatever the intensity
    string. *)
Theorem foreground_faster_than_background (intensity : string) :
  0 < bg_speed intensity /\ bg_speed intensity < fg_speed intensity
  /\ 3 * fg_speed intensity = 8 * bg_speed intensity.
Proof.
  destruct (speeds_ordered intensity) as [H1 H2].
  repeat split; try assumption. unfold bg_speed, fg_speed. lra.
Qed.

Lemma IZR_abs_int_of_float_le (x : R) : IZR (Z.abs (Py.int_of_float x)) <= Rabs x.
Proof. rewrite int_of_float_abs. apply Int_part_bounds. Qed.

Lemma layer_offsets_ordered (d : Z) (intensity : string) (e : R) :
  (-1 <= d <= 1)%Z -> 0 <= e <= 1 ->
  (Z.abs (Py.int_of_float (IZR d * bg_speed intensity * e))
   <= Z.abs (Py.int_of_float (IZR d * fg_speed intensity * e)))%Z
  /\ (3 * Z.abs (Py.int_of_float (IZR d * fg_speed intensity * e))
      <= pad_x intensity)%Z.
Proof.
  intros Hd He.
  destruct (speeds_ordered intensity) as [Hb Hf].
  assert (Hd' : Rabs (IZR d) <= 1).
  { destruct Hd as [Hl Hu]. apply IZR_le in Hl, Hu. apply Rabs_le. lra. }
  pose proof (Rabs_pos (IZR d)) as Hd0.
  split.
  - apply int_of_float_abs_mono.
    rewrite !Rabs_mult, (Rabs_right (bg_speed intensity)),
      (Rabs_right (fg_speed intensity)), (Rabs_right e) by lra.
    apply Rmult_le_compat_r; [lra |].
    apply Rmult_le_compat_l; lra.
  - pose proof (IZR_abs_int_of_float_le (IZR d * fg_speed intensity * e)) as H.
    rewrite !Rabs_mult, (Rabs_right (fg_speed intensity)), (Rabs_right e) in H by lra.
    destruct (pad_x_exact intensity) as [Hp _]. rewrite max_speed_is_fg in Hp.
    apply le_IZR. rewrite mult_IZR.
    assert (H1 : Rabs (IZR d) * fg_speed intensity <= fg_speed intensity) by nra.
    assert (H0 : 0 <= Rabs (IZR d) * fg_speed intensity)
      by (apply Rmult_le_pos; lra).
    assert (H2 : Rabs (IZR d) * fg_speed intensity * e
                 <= Rabs (IZR d) * fg_speed intensity).
    { rewrite <- (Rmult_1_r (Rabs (IZR d) * fg_speed intensity)) at 2.
      apply Rmult_le_compat_l; lra. }
    lra.
Qed.

(** X2.  In every frame the background is displaced by no more than the
    foreground, and three times the foreground displacement stays within
    the mirror padding, on both axes. *)
Theorem offsets_within_padding (direction intensity : string) (frame_idx total : Z) :
  (Z.abs (bg_offset_x direction intensity frame_idx total)
   <= Z.abs (fg_offset_x direction intensity frame_idx total))%Z
  /\ (3 * Z.abs (fg_offset_x direction intensity frame_idx total) <= pad_x intensity)%Z
  /\ (Z.abs (bg_offset_y direction intensity frame_idx total)
      <= Z.abs (fg_offset_y direction intensity frame_idx total))%Z
  /\ (3 * Z.abs (fg_offset_y direction intensity frame_idx total) <= pad_y intensity)%Z.
Proof.
  destruct (direction_vector_range direction) as [Hdx Hdy].
  pose proof (eased_t_range frame_idx total) as He.
  destruct (layer_offsets_ordered _ intensity _ Hdx He) as [H1 H2].
  destruct (layer_offsets_ordered _ intensity _ Hdy He) as [H3 H4].
  change (pad_y intensity) with (pad_x intensity).
  unfold bg_offset_x, bg_offset_y, fg_offset_x, fg_offset_y.
  repeat split; assumption.
Qed.

(** Truncation commutes with a sign in {-1, 0, 1}. *)
Lemma int_of_float_signed (d : Z) (x : R) :
  (-1 <= d <= 1)%Z -> 0 <= x ->
  Py.int_of_float (IZR d * x) = (d * Py.int_of_float x)%Z.
Proof.
  intros Hd Hx.
  assert (Hc : d = (-1)%Z \/ d = 0%Z \/ d = 1%Z) by lia.
  destruct Hc as [-> | [-> | ->]].
  - replace (-1 * x) with (- x) by lra.
    unfold Py.int_of_float at 1.
    destruct (Rle_dec 0 (- x)) as [H | H].
    + assert (x = 0) by lra. subst x. rewrite Ropp_0, int_of_float_0.
      rewrite (Int_part_IZR 0). reflexivity.
    + rewrite Ropp_involutive, (int_of_float_nonneg x Hx). lia.
  - rewrite Rmult_0_l, int_of_float_0. lia.
  - rewrite Rmult_1_l. lia.
Qed.

(** X3.  With at least two frames, the last frame shows the full movement: each
    offset is the direction component times the truncated layer speed (the
    foreground travels a third of the padding, the background 7, 15 or 22
    pixels), and the zoom scale is [zoom_end]. *)
Theorem last_frame_full_movement (direction intensity zoom : string) (total : Z) :
  (2 <= total)%Z ->
  let dx := fst (direction_vector direction) in
  let dy := snd (direction_vector direction) in
  bg_offset_x direction intensity (total - 1) total
    = (dx * Py.int_of_float (bg_speed intensity))%Z
  /\ bg_offset_y direction intensity (total - 1) total
    = (dy * Py.int_of_float (bg_speed intensity))%Z
  /\ fg_offset_x direction intensity (total - 1) total
    = (dx * Py.int_of_float (fg_speed intensity))%Z
  /\ fg_offset_y direction intensity (total - 1) total
    = (dy * Py.int_of_float (fg_speed intensity))%Z
  /\ (3 * Py.int_of_float (fg_speed intensity) = pad_x intensity)%Z
  /\ (7 <= Py.int_of_float (bg_speed intensity) <= 22)%Z
  /\ current_zoom zoom intensity (total - 1) total = zoom_end zoom intensity.
Proof.
  intros Ht dx dy.
  destruct (direction_vector_range direction) as [Hdx Hdy].
  destruct (speeds_ordered intensity) as [Hb Hf].
  unfold bg_offset_x, bg_offset_y, fg_offset_x, fg_offset_y, current_zoom.
  rewrite eased_t_last by exact Ht. rewrite !Rmult_1_r.
  fold dx dy.
  rewrite !int_of_float_signed by (first [assumption | lra]).
  repeat split; try reflexivity.
  - unfold fg_speed.
    destruct (intensity_mult_cases intensity) as [H | [H | H]].
    + unfold pad_x. rewrite max_speed_is_fg. unfold fg_speed. rewrite H.
      replace (40 * 0.5) with (IZR 20) by lra.
      replace (IZR 20 * 3) with (IZR 60) by lra.
      now rewrite !int_of_float_IZR.
    + unfold pad_x. rewrite max_speed_is_fg. unfold fg_speed. rewrite H.
      replace (40 * 1) with (IZR 40) by lra.
      replace (IZR 40 * 3) with (IZR 120) by lra.
      now rewrite !int_of_float_IZR.
    + unfold pad_x. rewrite max_speed_is_fg. unfold fg_speed. rewrite H.
      replace (40 * 1.5) with (IZR 60) by lra.
      replace (IZR 60 * 3) with (IZR 180) by lra.
      now rewrite !int_of_float_IZR.
  - apply int_of_float_ge; [lia |]. unfold bg_speed.
    destruct (intensity_mult_cases intensity) as [H | [H | H]]; rewrite H; lra.
  - assert (H : (Z.abs (Py.int_of_float (bg_speed intensity)) <= 23)%Z).
    { apply int_of_float_abs_le. rewrite Rabs_right by lra. unfold bg_speed.
      destruct (intensity_mult_cases intensity) as [H | [H | H]]; rewrite H; lra. }
    assert (H' : IZR (Z.abs (Py.int_of_float (bg_speed intensity))) <= 22.5).
    { eapply Rle_trans; [apply IZR_abs_int_of_float_le |].
      rewrite Rabs_right by lra. unfold bg_speed.
      destruct (intensity_mult_cases intensity) as [H1 | [H1 | H1]]; rewrite H1; lra. }
    assert (Hlt : IZR (Z.abs (Py.int_of_float (bg_speed intensity))) < IZR 23) by lra.
    apply lt_IZR in Hlt. lia.
  - lra.
Qed.

Lemma last_frame_full_movement_witness :
  fg_offset_x "left" "dramatic" (48 - 1) 48
  = (fst (direction_vector "left") * Py.int_of_float (fg_speed "dramatic"))%Z.
Proof. apply (last_frame_full_movement "left" "dramatic" "none" 48). lia. Defined.

End ParallaxMore.

(** ** Zoom range, pan axis and the frame sequence *)

Section ScheduleMore.

Import Parallax.
Open Scope R_scope.

(** X4.  The zoom scale stays between 1.0 and 1 + 0.15 x multiplier, hence at
    most 1.225, in every frame; without zoom "in" or "out" it is exactly
    1.0, and the zoomed frame is never more than 1.225 times the output
    size. *)
Theorem zoom_scale_range (zoom intensity : string) (frame_idx total : Z) (dim : Z) :
  (0 <= dim)%Z ->
  let z := current_zoom zoom intensity frame_idx total in
  1 <= z /\ z <= 1 + zoom_amount intensity /\ z <= 1.225
  /\ IZR (zoomed_dim dim z) <= 1.225 * IZR dim
  /\ (if String.eqb zoom "in" then True
      else if String.eqb zoom "out" then True else z = 1).
Proof.
  intros Hdim z.
  pose proof (current_zoom_cases zoom intensity frame_idx total) as H.
  pose proof (zoom_amount_range intensity) as Ha.
  pose proof (eased_t_range frame_idx total) as He.
  pose proof (current_zoom_ge_1 zoom intensity frame_idx total) as H1.
  fold z in H, H1.
  assert (Hup : z <= 1 + zoom_amount intensity).
  { destruct (String.eqb zoom "in"); [nra |].
    destruct (String.eqb zoom "out"); [nra | lra]. }
  repeat split; try lra.
  - unfold zoomed_dim.
    assert (Hd : 0 <= IZR dim) by (apply IZR_le in Hdim; exact Hdim).
    rewrite int_of_float_nonneg by nra.
    pose proof (Int_part_bounds (IZR dim * z)). nra.
  - destruct (String.eqb zoom "in"); [exact I |].
    destruct (String.eqb zoom "out"); [exact I | lra].
Qed.

Lemma zoom_scale_range_witness :
  current_zoom "out" "dramatic" 10 48 <= 1.225.
Proof. apply (zoom_scale_range "out" "dramatic" 10 48 640). lia. Defined.

Lemma int_of_float_zero_factor (x y : R) : Py.int_of_float (IZR 0 * x * y) = 0%Z.
Proof. rewrite !Rmult_0_l. apply int_of_float_0. Qed.

(** X5.  A pan is along one axis only: in every frame either both horizontal
    offsets or both vertical offsets are 0; and a direction that is none of
    "left", "right", "up", "down" gives no pan at all, the crop staying at
    the centre of the canvas. *)
Theorem pan_is_axis_aligned (direction intensity : string) (frame_idx total : Z)
    (width height : Z) :
  ((bg_offset_x direction intensity frame_idx total = 0
    /\ fg_offset_x direction intensity frame_idx total = 0)
   \/ (bg_offset_y direction intensity frame_idx total = 0
       /\ fg_offset_y direction intensity frame_idx total = 0))%Z
  /\ (if existsb (String.eqb direction) ["left"; "right"; "up"; "down"]%string
      then True
      else (bg_offset_x direction intensity frame_idx total = 0
            /\ bg_offset_y direction intensity frame_idx total = 0
            /\ fg_offset_x direction intensity frame_idx total = 0
            /\ fg_offset_y direction intensity frame_idx total = 0
            /\ crop_x width direction intensity frame_idx total
               = bg_center_offset_x width intensity
            /\ crop_y height direction intensity frame_idx total
               = bg_center_offset_y height intensity)%Z).
Proof.
  unfold crop_x, crop_y, bg_offset_x, bg_offset_y, fg_offset_x, fg_offset_y,
    direction_vector. simpl existsb.
  destruct (String.eqb direction "left"); simpl;
    [split; [right; split; apply int_of_float_zero_factor | exact I] |].
  destruct (String.eqb direction "right"); simpl;
    [split; [right; split; apply int_of_float_zero_factor | exact I] |].
  destruct (String.eqb direction "up"); simpl;
    [split; [left; split; apply int_of_float_zero_factor | exact I] |].
  destruct (String.eqb direction "down"); simpl;
    [split; [left; split; apply int_of_float_zero_factor | exact I] |].
  rewrite !int_of_float_zero_factor.
  repeat split; try (left; split; reflexivity); lia.
Qed.

Lemma render_frame_size (orig_width orig_height : Z)
    (direction intensity zoom : string) (frame_idx total : Z) :
  render_frame orig_width orig_height direction intensity zoom frame_idx total
  = mkImage (even_dim orig_width) (even_dim orig_height).
Proof.
  unfold render_frame.
  destruct (Req_dec_T _ _); unfold convert, paste, crop, resize; simpl;
    f_equal; lia.
Qed.

Lemma range_spec (n i : Z) : In i (Sequence.range n) <-> (0 <= i < n)%Z.
Proof.
  unfold Sequence.range. rewrite in_map_iff. split.
  - intros [k [<- Hk]]. apply in_seq in Hk. lia.
  - intros Hi. exists (Z.to_nat i). split; [lia |]. apply in_seq. lia.
Qed.

(** X6.  Whatever the value of [total_frames], the loop writes
    [max(0, total_frames)] frames, none when it is 0 or negative; the
    frame indices are 0, 1, ... in order, every frame has the output size
    and every frame index used has its progress in [0, 1]. *)
Theorem frame_sequence (orig_width orig_height : Z)
    (direction intensity zoom : string) (total : Z) :
  let fs := Sequence.frame_loop orig_width orig_height direction intensity zoom
              total in
  Z.of_nat (length fs) = Z.max 0 total
  /\ length (Sequence.range total) = length fs
  /\ (forall k i, nth_error (Sequence.range total) k = Some i -> i = Z.of_nat k)
  /\ Forall (fun f => f = mkImage (even_dim orig_width) (even_dim orig_height)) fs
  /\ Forall (fun i => 0 <= progress i total <= 1) (Sequence.range total).
Proof.
  intros fs. subst fs. unfold Sequence.frame_loop.
  split; [unfold Sequence.range; rewrite !length_map, length_seq; lia |].
  split; [now rewrite length_map |].
  split; [| split].
  - intros k i Hk. unfold Sequence.range in Hk.
    rewrite nth_error_map, nth_error_seq in Hk.
    destruct (Nat.ltb_spec k (Z.to_nat total)); simpl in Hk; congruence.
  - apply Forall_map, Forall_forall. intros i _. apply render_frame_size.
  - apply Forall_forall. intros i Hi. apply range_spec in Hi.
    apply progress_range. lia.
Qed.

End ScheduleMore.

(** ** Depth maps and layer masks, continued *)

Section DepthMore.

Import Depth.
Open Scope Q_scope.

(** Normalisation fails exactly on an array without elements. *)
Theorem normalize_fails_on_empty (a : array2 Q) :
  normalize a = None <-> concat a = [].
Proof.
  unfold normalize, arr_min, arr_max.
  destruct (concat a); split; intros H; try reflexivity; discriminate.
Qed.

Lemma at2_in_concat {A : Type} (a : array2 A) (r c : nat) (x : A) :
  at2 a r c = Some x -> In x (concat a).
Proof.
  intros H. destruct (at2_In a r c x H) as [row [Hrow Hin]].
  apply in_concat. now exists row.
Qed.

Lemma rescale_in_unit (lo hi x : Q) :
  lo <= x -> x <= hi ->
  0 <= (x - lo) / (hi - lo + eps) /\ (x - lo) / (hi - lo + eps) < 1.
Proof.
  intros H1 H2.
  assert (Hlh : lo <= hi) by (now apply Qle_trans with x).
  destruct (rescale_hi lo hi Hlh) as [_ [Htop1 _]].
  pose proof (rescale_mono lo hi lo x Hlh H1) as H3.
  pose proof (rescale_mono lo hi x hi Hlh H2) as H4.
  rewrite rescale_lo in H3.
  split; [exact H3 |]. eapply Qle_lt_trans; [exact H4 | exact Htop1].
Qed.

(** What [normalize] returns on a non-empty array, with its extrema. *)
Lemma normalize_unfolded (a : array2 Q) :
  concat a <> [] ->
  exists lo hi,
    arr_min a = Some lo /\ arr_max a = Some hi
    /\ normalize a = Some (map (map (fun q => (q - lo) / (hi - lo + eps))) a)
    /\ (forall x, In x (concat a) -> lo <= x /\ x <= hi).
Proof.
  intros Hne. unfold normalize, arr_min, arr_max.
  destruct (concat a) as [| x0 xs] eqn:Hflat; [congruence | clear Hne].
  destruct (fold_min_spec xs x0) as [Hlb _].
  destruct (fold_max_spec xs x0) as [Hub _].
  exists (fold_left Qmin xs x0), (fold_left Qmax xs x0).
  repeat split; [now apply Hlb | now apply Hub].
Qed.



(** A depth outside [0, 1] belongs to no layer. *)
Lemma mask_value_out_of_range (n i : nat) (d : Q) :
  (1 <= n)%nat -> (i < n)%nat -> d < 0 \/ 1 < d -> mask_value n i d = 0.
Proof.
  intros Hn Hi Hout.
  assert (HN : 0 < inject_Z (Z.of_nat n)).
  { change 0 with (inject_Z 0). rewrite <- Zlt_Qlt. lia. }
  unfold mask_value. rewrite !threshold_nth by lia.
  unfold Qlt_bool. rewrite !threshold_leb by assumption.
  set (F := Qfloor (d * inject_Z (Z.of_nat n))).
  destruct Hout as [Hneg | Hbig].
  - assert (HF : (F < 0)%Z).
    { assert (H : inject_Z F < inject_Z 0).
      { eapply Qle_lt_trans; [apply Qfloor_le |]. change (inject_Z 0) with 0. nra. }
      now rewrite <- Zlt_Qlt in H. }
    destruct (Z.leb_spec (Z.of_nat i) F); [lia |].
    destruct (Nat.eqb i (n - 1)); reflexivity.
  - assert (HF : (Z.of_nat n <= F)%Z).
    { subst F. rewrite <- (Qfloor_Z (Z.of_nat n)) at 1.
      apply Qfloor_resp_le. nra. }
    destruct (Nat.eqb_spec i (n - 1)) as [Hlast | Hlast].
    + assert (Hd : Qle_bool d (inject_Z (Z.of_nat (S i)) / inject_Z (Z.of_nat n)) = false).
      { apply not_true_is_false. rewrite Qle_bool_iff. intros Hle.
        replace (S i) with n in Hle by lia.
        assert (H1 : inject_Z (Z.of_nat n) / inject_Z (Z.of_nat n) == 1).
        { unfold Qdiv. apply Qmult_inv_r. lra. }
        rewrite H1 in Hle. lra. }
      rewrite Hd, andb_false_r. reflexivity.
    + destruct (Z.leb_spec (Z.of_nat (S i)) F); [| lia].
      simpl. rewrite andb_false_r. reflexivity.
Qed.

(** X9.  With at least one layer, a pixel whose depth lies outside [0, 1] is 0
    in every mask: it is assigned to no layer. *)
Theorem out_of_range_depth_in_no_layer (depth_map : array2 Q) (n : nat)
    (r c : nat) (d : Q) :
  (1 <= n)%nat -> at2 depth_map r c = Some d -> d < 0 \/ 1 < d ->
  Forall (fun m => at2 m r c = Some 0) (create_layer_masks depth_map n).
Proof.
  intros Hn Hd Hout. unfold create_layer_masks.
  apply Forall_map, Forall_forall. intros i Hi. apply in_seq in Hi.
  rewrite at2_map, Hd. simpl.
  now rewrite mask_value_out_of_range by (first [assumption | lia]).
Qed.

Lemma out_of_range_depth_in_no_layer_witness :
  Forall (fun m => at2 m 0 1 = Some 0)
         (create_layer_masks [[1 # 2; 3 # 2]] 3).
Proof.
  apply (out_of_range_depth_in_no_layer [[1 # 2; 3 # 2]] 3 0 1 (3 # 2)).
  - lia.
  - reflexivity.
  - right. reflexivity.
Defined.

(** X10.  Composition: the masks computed from a normalised depth image are a
    partition of its pixels, whatever the raw image and for any number of
    layers [n >= 1]. *)
Theorem masks_of_normalized_depth_partition (image : array2 Z) (n : nat)
    (r c : nat) (z : Z) :
  (1 <= n)%nat -> at2 image r c = Some z ->
  exists d k,
    normalize (np_array image) = Some d
    /\ (k < n)%nat
    /\ forall i, (i < n)%nat ->
         exists m, nth_error (create_layer_masks d n) i = Some m
                   /\ at2 m r c = Some (if Nat.eqb i k then 1 else 0).
Proof.
  intros Hn Hz.
  assert (Hraw : at2 (np_array image) r c = Some (inject_Z z)).
  { unfold np_array. now rewrite at2_map, Hz. }
  assert (Hne : concat (np_array image) <> []).
  { intros Hnil. apply at2_in_concat in Hraw. now rewrite Hnil in Hraw. }
  destruct (normalize_unfolded (np_array image) Hne)
    as [lo [hi [_ [_ [Hd Hbounds]]]]].
  set (d := map (map (fun q => (q - lo) / (hi - lo + eps))) (np_array image)) in *.
  assert (Hy : at2 d r c = Some ((inject_Z z - lo) / (hi - lo + eps))).
  { subst d. now rewrite at2_map, Hraw. }
  destruct (Hbounds _ (at2_in_concat _ _ _ _ Hraw)) as [Hlo Hhi].
  destruct (rescale_in_unit lo hi (inject_Z z) Hlo Hhi) as [H0 H1].
  destruct (mask_value_partition n _ Hn H0 (Qlt_le_weak _ _ H1)) as [k [Hk Hmask]].
  exists d, k. split; [exact Hd |]. split; [exact Hk |].
  intros i Hi. exists (map (map (mask_value n i)) d). split.
  - unfold create_layer_masks. rewrite nth_error_map, nth_error_seq.
    destruct (Nat.ltb_spec i n); [reflexivity | lia].
  - rewrite at2_map, Hy. simpl. now rewrite Hmask.
Qed.

Lemma masks_of_normalized_depth_partition_witness :
  exists d, normalize (np_array [[12; 200]; [47; 255]]%Z) = Some d.
Proof.
  destruct (masks_of_normalized_depth_partition
              [[12; 200]; [47; 255]]%Z 3 1 0 47%Z) as [d [k [Hd _]]].
  - lia.
  - reflexivity.
  - now exists d.
Defined.

End DepthMore.

(** ** How far the dilation reaches *)

Section MorphologyMore.

Import Morphology.
Open Scope Z_scope.

Variable w : nat.

Lemma inside_dec (m : mask) (r c : Z) : {inside w m r c} + {~ inside w m r c}.
Proof.
  unfold Morphology.inside.
  destruct (Z_le_dec 0 r); [| right; lia].
  destruct (Z_lt_dec r (Z.of_nat (length m))); [| right; lia].
  destruct (Z_le_dec 0 c); [| right; lia].
  destruct (Z_lt_dec c (Z.of_nat w)); [left; lia | right; lia].
Qed.

Lemma inside_in_image (m : mask) (r c : Z) :
  rows_have_width w m -> inside w m r c ->
  in_image m (Z.to_nat r) (Z.to_nat c).
Proof.
  intros Hrect [Hr Hc]. unfold in_image.
  assert (Hr' : (Z.to_nat r < length m)%nat) by lia.
  split; [exact Hr' |].
  rewrite (Hrect (nth (Z.to_nat r) m [])) by (now apply nth_In). lia.
Qed.

Lemma pixel_outside (m : mask) (r c : Z) :
  rows_have_width w m -> ~ inside w m r c -> pixel m r c = 0.
Proof.
  intros Hrect Hout. unfold pixel, Morphology.inside in *.
  destruct (Z.leb_spec 0 r) as [Hr | Hr]; [| reflexivity].
  destruct (Z.leb_spec 0 c) as [Hc | Hc]; [| reflexivity]. simpl.
  destruct (Nat.lt_ge_cases (Z.to_nat r) (length m)) as [Hlt | Hge].
  - apply nth_overflow.
    rewrite (Hrect (nth (Z.to_nat r) m [])) by (now apply nth_In).
    lia.
  - rewrite (nth_overflow m [] Hge). now destruct (Z.to_nat c).
Qed.

Lemma dilate1_inside (m : mask) (r c : Z) :
  rows_have_width w m -> inside w m r c ->
  pixel (dilate1 m) r c = window_max m r c.
Proof.
  intros Hrect Hin.
  pose proof (inside_in_image m r c Hrect Hin) as Himg.
  destruct Hin as [Hr Hc].
  pose proof (dilate1_pixel m _ _ Himg) as H.
  now rewrite !Z2Nat.id in H by lia.
Qed.

Lemma dilate1_rows_have_width (m : mask) :
  rows_have_width w m -> rows_have_width w (dilate1 m).
Proof.
  intros Hrect row Hrow. unfold dilate1 in Hrow.
  apply in_map_iff in Hrow. destruct Hrow as [r [<- Hr]].
  apply in_seq in Hr. rewrite length_map, length_seq.
  apply Hrect, nth_In. lia.
Qed.

Lemma dilate1_keeps_inside (m : mask) (r c : Z) :
  inside w m r c <-> inside w (dilate1 m) r c.
Proof. unfold Morphology.inside. now rewrite dilate1_length. Qed.

Lemma kernel_offsets_spec (d : Z) : In d kernel_offsets <-> -3 <= d <= 3.
Proof. unfold kernel_offsets. simpl. lia. Qed.

Lemma window_max_ge (m : mask) (r c r' c' : Z) :
  Z.abs (r' - r) <= 3 -> Z.abs (c' - c) <= 3 ->
  pixel m r' c' <= window_max m r c.
Proof.
  intros Hr Hc. unfold window_max. apply fold_max_ge.
  apply in_flat_map. exists (r' - r). split; [apply kernel_offsets_spec; lia |].
  apply in_map_iff. exists (c' - c). split; [| apply kernel_offsets_spec; lia].
  f_equal; lia.
Qed.

Lemma fold_max_le (l : list Z) (b : Z) :
  0 <= b -> (forall x, In x l -> x <= b) -> fold_right Z.max 0 l <= b.
Proof.
  intros Hb. induction l as [| a l IH]; simpl; intros H; [exact Hb |].
  pose proof (H a (or_introl eq_refl)).
  assert (fold_right Z.max 0 l <= b) by (apply IH; intros x Hx; apply H; now right).
  lia.
Qed.

Lemma window_max_le (m : mask) (r c b : Z) :
  0 <= b ->
  (forall r' c', Z.abs (r' - r) <= 3 -> Z.abs (c' - c) <= 3 -> pixel m r' c' <= b) ->
  window_max m r c <= b.
Proof.
  intros Hb H. unfold window_max. apply fold_max_le; [exact Hb |].
  intros x Hx. apply in_flat_map in Hx. destruct Hx as [dr [Hdr Hx]].
  apply in_map_iff in Hx. destruct Hx as [dc [<- Hdc]].
  apply kernel_offsets_spec in Hdr, Hdc. apply H; lia.
Qed.

(** After [n] passes a sample dominates every sample of the source within
    Chebyshev distance [3 n]. *)
Lemma dilate_reaches (n : nat) : forall (m : mask) (r c r' c' : Z),
  rows_have_width w m -> inside w m r c -> inside w m r' c' ->
  Z.abs (r' - r) <= 3 * Z.of_nat n -> Z.abs (c' - c) <= 3 * Z.of_nat n ->
  pixel m r' c' <= pixel (dilate m n) r c.
Proof.
  induction n as [| n IH]; intros m r c r' c' Hrect Hin Hin' Hr Hc; simpl dilate.
  - replace r' with r by lia. replace c' with c by lia. lia.
  - set (r1 := r' + Z.max (-3) (Z.min 3 (r - r'))).
    set (c1 := c' + Z.max (-3) (Z.min 3 (c - c'))).
    assert (Hin1 : inside w m r1 c1).
    { destruct Hin as [? ?], Hin' as [? ?]. unfold Morphology.inside. subst r1 c1. lia. }
    transitivity (pixel (dilate1 m) r1 c1).
    + rewrite dilate1_inside by assumption.
      apply window_max_ge; subst r1 c1; lia.
    + apply IH.
      * now apply dilate1_rows_have_width.
      * apply -> dilate1_keeps_inside. exact Hin.
      * apply -> dilate1_keeps_inside. exact Hin1.
      * subst r1. lia.
      * subst c1. lia.
Qed.

(** After [n] passes a sample is bounded by any bound on the samples of the
    source within Chebyshev distance [3 n]. *)
Lemma dilate_bounded (n : nat) : forall (m : mask) (r c b : Z),
  rows_have_width w m -> 0 <= b ->
  (forall r' c', Z.abs (r' - r) <= 3 * Z.of_nat n ->
                 Z.abs (c' - c) <= 3 * Z.of_nat n -> pixel m r' c' <= b) ->
  pixel (dilate m n) r c <= b.
Proof.
  induction n as [| n IH]; intros m r c b Hrect Hb H; simpl dilate.
  - apply H; lia.
  - apply IH; [now apply dilate1_rows_have_width | exact Hb |].
    intros r1 c1 Hr1 Hc1.
    destruct (inside_dec m r1 c1) as [Hin1 | Hout1].
    + rewrite dilate1_inside by assumption.
      apply window_max_le; [exact Hb |].
      intros r' c' Hr' Hc'. apply H; lia.
    + rewrite pixel_outside; [exact Hb | now apply dilate1_rows_have_width |].
      intros Hin. apply Hout1. apply <- dilate1_keeps_inside. exact Hin.
Qed.

End MorphologyMore.

Section InpaintMaskReach.

Import Morphology.
Open Scope Z_scope.

(** X11.  In a rectangular binary mask, a set pixel sets every pixel of the
    image within Chebyshev distance 12 (four passes of reach 3) in the
    inpainting mask. *)
Theorem inpaint_mask_reaches_12 (w : nat) (hard_mask : mask) (r c r' c' : Z) :
  binary hard_mask -> rows_have_width w hard_mask ->
  inside w hard_mask r c -> inside w hard_mask r' c' ->
  Z.abs (r' - r) <= 12 -> Z.abs (c' - c) <= 12 ->
  pixel hard_mask r' c' = 255 ->
  pixel (inpaint_mask hard_mask) r c = 255.
Proof.
  intros Hb Hrect Hin Hin' Hr Hc Hset. unfold inpaint_mask.
  pose proof (dilate_reaches w 4 hard_mask r c r' c' Hrect Hin Hin'
                ltac:(simpl; lia) ltac:(simpl; lia)) as Hle.
  destruct (pixel_binary (dilate hard_mask 4) r c (dilate_binary 4 _ Hb)); lia.
Qed.

Lemma inpaint_mask_reaches_12_witness :
  pixel (inpaint_mask [[255; 0; 0; 0; 0; 0; 0; 0; 0; 0; 0; 0; 0; 0; 0]]) 0 12 = 255.
Proof.
  apply (inpaint_mask_reaches_12 15
           [[255; 0; 0; 0; 0; 0; 0; 0; 0; 0; 0; 0; 0; 0; 0]] 0 12 0 0).
  - unfold binary. repeat (first [apply Forall_nil | apply Forall_cons]); auto.
  - intros row [<- | []]. reflexivity.
  - unfold inside; simpl; lia.
  - unfold inside; simpl; lia.
  - simpl; lia.
  - simpl; lia.
  - reflexivity.
Defined.

(** X12.  Conversely the inpainting mask never grows by more than 12 pixels: a
    pixel with no set pixel within Chebyshev distance 12 stays 0. *)
Theorem inpaint_mask_stays_within_12 (w : nat) (hard_mask : mask) (r c : Z) :
  binary hard_mask -> rows_have_width w hard_mask ->
  (forall r' c', Z.abs (r' - r) <= 12 -> Z.abs (c' - c) <= 12 ->
                 pixel hard_mask r' c' = 0) ->
  pixel (inpaint_mask hard_mask) r c = 0.
Proof.
  intros Hb Hrect Hclear. unfold inpaint_mask.
  assert (Hle : pixel (dilate hard_mask 4) r c <= 0).
  { apply (dilate_bounded w 4); [exact Hrect | lia |].
    intros r' c' Hr Hc. rewrite Hclear; simpl in *; lia. }
  destruct (pixel_binary (dilate hard_mask 4) r c (dilate_binary 4 _ Hb)); lia.
Qed.

Lemma inpaint_mask_stays_within_12_witness :
  pixel (inpaint_mask [[255; 0; 0; 0; 0; 0; 0; 0; 0; 0; 0; 0; 0; 0; 0]]) 0 13 = 0.
Proof.
  apply (inpaint_mask_stays_within_12 15
           [[255; 0; 0; 0; 0; 0; 0; 0; 0; 0; 0; 0; 0; 0; 0]] 0 13).
  - unfold binary. repeat (first [apply Forall_nil | apply Forall_cons]); auto.
  - intros row [<- | []]. reflexivity.
  - intros r' c' _ Hc. unfold pixel.
    destruct ((0 <=? r') && (0 <=? c')); [| reflexivity].
    assert (Hk : exists k, Z.to_nat c' = S k) by (exists (Z.to_nat c' - 1)%nat; lia).
    destruct Hk as [k ->].
    destruct (Z.to_nat r') as [| r0]; simpl.
    + do 15 (destruct k as [| k]; [reflexivity |]). reflexivity.
    + destruct r0; reflexivity.
Defined.

End InpaintMaskReach.

(** ** The entry point, continued *)

Section EntryMore.

Import Entry.
Open Scope Z_scope.

Variable json_loads : string -> exn + json.
Variable generate_parallax_video :
  string -> string -> value -> value -> value -> value -> value -> value ->
  exn + string.


(** X14.  A third argument that decodes to something other than an object (a
    list, a number, null) is not reported either: the attribute error of
    [options.get] is raised before the [try] block. *)
Theorem non_object_options_escape_handler
    (prog input_path output_path options_json : string) (rest : list string) :
  json_loads options_json = inr JOther ->
  let p := main json_loads generate_parallax_video
             (prog :: input_path :: output_path :: options_json :: rest) in
  exit_code p = 1 /\ stdout p = [] /\ ~ reports_failure p
  /\ exists e, stderr p = [Traceback (AttributeError e)].
Proof.
  intros Hloads p. subst p. simpl. rewrite Hloads. simpl.
  repeat split; [| eexists; reflexivity].
  intros [msg Hmsg]. discriminate Hmsg.
Qed.

End EntryMore.

(** ** The seam-blending weights *)

Section EdgeMaskFacts.

Import EdgeMask.
Open Scope Q_scope.

Lemma fold_left_invariant {A B : Type} (f : A -> B -> A) (P : A -> Prop)
    (l : list B) : forall a,
  P a -> (forall a x, In x l -> P a -> P (f a x)) -> P (fold_left f l a).
Proof.
  induction l as [| x l IH]; intros a Ha Hstep; simpl; [exact Ha |].
  apply IH.
  - apply Hstep; [now left | exact Ha].
  - intros a' y Hy. apply Hstep. now right.
Qed.

Lemma blend_factor_range (kx i : nat) :
  (i < kx)%nat ->
  0 <= inject_Z (Z.of_nat i) / inject_Z (Z.of_nat kx) /\
  inject_Z (Z.of_nat i) / inject_Z (Z.of_nat kx) <= 1.
Proof.
  intros Hi.
  assert (HK : 0 < inject_Z (Z.of_nat kx)).
  { change 0 with (inject_Z 0). rewrite <- Zlt_Qlt. lia. }
  assert (HI : 0 <= inject_Z (Z.of_nat i)).
  { change 0 with (inject_Z 0). rewrite <- Zle_Qle. lia. }
  assert (HIK : inject_Z (Z.of_nat i) <= inject_Z (Z.of_nat kx)).
  { rewrite <- Zle_Qle. lia. }
  split.
  - apply Qle_shift_div_l; [exact HK | lra].
  - apply Qle_shift_div_r; [exact HK | lra].
Qed.

Lemma column_step_shape (kx : nat) (a : farray) (i : nat) :
  shape0 (column_step kx a i) = shape0 a /\ shape1 (column_step kx a i) = shape1 a.
Proof. split; reflexivity. Qed.

Lemma Qmin_range (x y : Q) :
  0 <= x /\ x <= 1 -> 0 <= y /\ y <= 1 -> 0 <= Qmin x y /\ Qmin x y <= 1.
Proof.
  intros [Hx0 Hx1] [Hy0 Hy1]. split.
  - now apply Q.min_glb.
  - eapply Qle_trans; [apply Q.le_min_l | exact Hx1].
Qed.

Lemma Qmin_zero_l (x y : Q) : x == 0 -> 0 <= y -> Qmin x y == 0.
Proof. intros Hx Hy. rewrite Hx. apply Q.min_l. exact Hy. Qed.

Lemma column_step_range_at (kx : nat) (a : farray) (i r c : nat) :
  (i < kx)%nat ->
  0 <= elt a r c /\ elt a r c <= 1 ->
  0 <= elt (column_step kx a i) r c /\ elt (column_step kx a i) r c <= 1.
Proof.
  intros Hi Ha. unfold column_step, min_col. simpl.
  pose proof (blend_factor_range kx i Hi) as Hb.
  destruct (c =? shape1 a - (i + 1))%nat; destruct (c =? i)%nat;
    repeat apply Qmin_range; auto.
Qed.

Lemma column_step_zero (kx : nat) (a : farray) (i r c : nat) :
  (i < kx)%nat -> elt a r c == 0 -> elt (column_step kx a i) r c == 0.
Proof.
  intros Hi Hz. unfold column_step, min_col. simpl.
  destruct (blend_factor_range kx i Hi) as [Hb _].
  destruct (c =? shape1 a - (i + 1))%nat; destruct (c =? i)%nat;
    repeat apply Qmin_zero_l; auto.
Qed.

Lemma column_step_untouched (kx : nat) (a : farray) (i r c : nat) :
  c <> i -> c <> (shape1 a - (i + 1))%nat ->
  elt (column_step kx a i) r c = elt a r c.
Proof.
  intros H1 H2. unfold column_step, min_col. simpl.
  destruct (Nat.eqb_spec c (shape1 a - (i + 1))); [contradiction |].
  destruct (Nat.eqb_spec c i); [contradiction | reflexivity].
Qed.

(** The first turn of the loop zeroes the first and the last column. *)
Lemma column_step_first (kx : nat) (a : farray) (r c : nat) :
  (0 < kx)%nat -> (c = 0%nat \/ c = (shape1 a - 1)%nat) ->
  0 <= elt a r c -> elt (column_step kx a 0) r c == 0.
Proof.
  intros Hk Hc Ha. unfold column_step, min_col. simpl.
  assert (Hz : 0 / inject_Z (Z.of_nat kx) == 0) by (unfold Qdiv; ring).
  destruct (Nat.eqb_spec c (shape1 a - 1)); destruct (Nat.eqb_spec c 0);
    try (destruct Hc; contradiction).
  - rewrite Hz. apply Q.min_r. apply Q.min_glb; [exact Ha | apply Qle_refl].
  - rewrite Hz. apply Q.min_r. exact Ha.
  - rewrite Hz. apply Q.min_r. exact Ha.
Qed.

Lemma ratio_range (k j : nat) :
  (0 < k)%nat -> (j <= k)%nat ->
  0 <= inject_Z (Z.of_nat j) / inject_Z (Z.of_nat k) /\
  inject_Z (Z.of_nat j) / inject_Z (Z.of_nat k) <= 1.
Proof.
  intros Hk Hj.
  assert (HK : 0 < inject_Z (Z.of_nat k)).
  { change 0 with (inject_Z 0). rewrite <- Zlt_Qlt. lia. }
  assert (HJ : 0 <= inject_Z (Z.of_nat j)).
  { change 0 with (inject_Z 0). rewrite <- Zle_Qle. lia. }
  assert (HJK : inject_Z (Z.of_nat j) <= inject_Z (Z.of_nat k)).
  { rewrite <- Zle_Qle. lia. }
  split.
  - apply Qle_shift_div_l; [exact HK | lra].
  - apply Qle_shift_div_r; [exact HK | lra].
Qed.

Lemma linspace_up (k j : nat) :
  linspace 0 1 k j == inject_Z (Z.of_nat j) / inject_Z (Z.of_nat (k - 1)).
Proof. unfold linspace, Qdiv. ring. Qed.

Lemma linspace_down (k j : nat) :
  linspace 1 0 k j == 1 - inject_Z (Z.of_nat j) / inject_Z (Z.of_nat (k - 1)).
Proof. unfold linspace, Qdiv. ring. Qed.

Lemma linspace_range (k j : nat) :
  (2 <= k)%nat -> (j < k)%nat ->
  (0 <= linspace 0 1 k j /\ linspace 0 1 k j <= 1)
  /\ (0 <= linspace 1 0 k j /\ linspace 1 0 k j <= 1).
Proof.
  intros Hk Hj. rewrite linspace_up, linspace_down.
  destruct (ratio_range (k - 1) j) as [H0 H1]; [lia | lia |].
  repeat split; lra.
Qed.

Lemma linspace_ends (k : nat) :
  (2 <= k)%nat -> linspace 0 1 k 0 == 0 /\ linspace 1 0 k (k - 1) == 0.
Proof.
  intros Hk. rewrite linspace_up, linspace_down. split.
  - unfold Qdiv. simpl. ring.
  - assert (HK : 0 < inject_Z (Z.of_nat (k - 1))).
    { change 0 with (inject_Z 0). rewrite <- Zlt_Qlt. lia. }
    unfold Qdiv. rewrite Qmult_inv_r by lra. ring.
Qed.

(** The mask after the two row assignments. *)
Lemma rows_assigned (h w ky r c : nat) :
  elt (set_bottom_rows (set_top_rows (ones h w) ky (linspace 0 1 ky)) ky
         (linspace 1 0 ky)) r c
  = if (h - ky <=? r)%nat then linspace 1 0 ky (r - (h - ky))
    else if (r <? ky)%nat then linspace 0 1 ky r else 1.
Proof. reflexivity. Qed.

(** X16.  The weights lie in [0, 1], vanish on the four borders of the padded
    image and are exactly 1 at least [pad + 30] pixels away from every
    border; building them never fails for the paddings the code uses. *)
Theorem edge_mask_profile (height width pad_x pad_y : nat) :
  (60 <= pad_x)%nat -> (60 <= pad_y)%nat ->
  let h := (height + pad_y + pad_y)%nat in
  let w := (width + pad_x + pad_x)%nat in
  exists m,
    edge_mask h w pad_x pad_y = Some m
    /\ shape0 m = h /\ shape1 m = w
    /\ (forall r c, (r < h)%nat -> (c < w)%nat ->
          0 <= elt m r c /\ elt m r c <= 1)
    /\ (forall r c, (r < h)%nat -> (c < w)%nat ->
          (r = 0 \/ r = h - 1 \/ c = 0 \/ c = w - 1)%nat -> elt m r c == 0)
    /\ (forall r c,
          (pad_y + 30 <= r)%nat -> (r < h - (pad_y + 30))%nat ->
          (pad_x + 30 <= c)%nat -> (c < w - (pad_x + 30))%nat ->
          elt m r c = 1).
Proof.
  intros Hpx Hpy h w.
  unfold edge_mask, edge_blur_size.
  set (ky := (pad_y + 30)%nat). set (kx := (pad_x + 30)%nat).
  assert (Hky : (ky <=? h)%nat = true) by (apply Nat.leb_le; subst ky h; lia).
  assert (Hkx : (kx <=? w)%nat = true) by (apply Nat.leb_le; subst kx w; lia).
  rewrite Hky, Hkx. simpl andb. cbv iota.
  set (m0 := set_bottom_rows (set_top_rows (ones h w) ky (linspace 0 1 ky)) ky
               (linspace 1 0 ky)).
  assert (Hm0 : forall r c, (r < h)%nat -> 0 <= elt m0 r c /\ elt m0 r c <= 1).
  { intros r c Hr. subst m0. rewrite rows_assigned.
    destruct (Nat.leb_spec (h - ky) r).
    - apply linspace_range; subst ky h; lia.
    - destruct (Nat.ltb_spec r ky); [apply linspace_range; subst ky; lia |].
      split; lra. }
  assert (Hin : forall i, In i (seq 0 kx) -> (i < kx)%nat).
  { intros i Hi. apply in_seq in Hi. lia. }
  eexists. split; [reflexivity |].
  assert (Hshape : shape0 (fold_left (column_step kx) (seq 0 kx) m0) = h
                   /\ shape1 (fold_left (column_step kx) (seq 0 kx) m0) = w).
  { apply (fold_left_invariant (column_step kx)
             (fun a => shape0 a = h /\ shape1 a = w)); [split; reflexivity |].
    intros a i _ Ha. exact Ha. }
  destruct Hshape as [Hs0 Hs1].
  split; [exact Hs0 |]. split; [exact Hs1 |].
  assert (Hrange : forall r c, (r < h)%nat ->
            0 <= elt (fold_left (column_step kx) (seq 0 kx) m0) r c
            /\ elt (fold_left (column_step kx) (seq 0 kx) m0) r c <= 1).
  { intros r c Hr.
    apply (fold_left_invariant (column_step kx)
             (fun a => 0 <= elt a r c /\ elt a r c <= 1)); [now apply Hm0 |].
    intros a i Hi Ha. apply column_step_range_at; [now apply Hin | exact Ha]. }
  split; [intros r c Hr _; now apply Hrange |]. split.
  - intros r c Hr Hc Hborder.
    destruct (linspace_ends ky) as [Hup Hdown]; [subst ky; lia |].
    assert (Hrow : (r = 0 \/ r = h - 1)%nat -> elt m0 r c == 0).
    { intros Hrb. subst m0. rewrite rows_assigned.
      destruct (Nat.leb_spec (h - ky) r).
      - replace (r - (h - ky))%nat with (ky - 1)%nat by (subst ky h; lia).
        exact Hdown.
      - destruct (Nat.ltb_spec r ky); [| subst ky h; lia].
        replace r with 0%nat by (subst ky h; lia). exact Hup. }
    destruct (Nat.eq_dec r 0) as [Hr0 | Hr0];
      [| destruct (Nat.eq_dec r (h - 1)) as [Hr1 | Hr1]].
    + apply (fold_left_invariant (column_step kx) (fun a => elt a r c == 0));
        [apply Hrow; now left |].
      intros a i Hi Ha. apply column_step_zero; [now apply Hin | exact Ha].
    + apply (fold_left_invariant (column_step kx) (fun a => elt a r c == 0));
        [apply Hrow; now right |].
      intros a i Hi Ha. apply column_step_zero; [now apply Hin | exact Ha].
    + assert (Hcol : (c = 0 \/ c = w - 1)%nat) by lia.
      replace kx with (S (kx - 1)) at 2 by (subst kx; lia).
      rewrite <- cons_seq. simpl fold_left.
      apply (fold_left_invariant (column_step kx) (fun a => elt a r c == 0)).
      * apply column_step_first; [subst kx; lia | exact Hcol |].
        now apply Hm0.
      * intros a i Hi Ha. apply column_step_zero; [| exact Ha].
        apply in_seq in Hi. lia.
  - intros r c Hr0 Hr1 Hc0 Hc1.
    assert (H : shape1 (fold_left (column_step kx) (seq 0 kx) m0) = w
                /\ elt (fold_left (column_step kx) (seq 0 kx) m0) r c = 1);
      [| apply H].
    apply (fold_left_invariant (column_step kx)
             (fun a => shape1 a = w /\ elt a r c = 1)).
    + split; [reflexivity |]. subst m0. rewrite rows_assigned.
      destruct (Nat.leb_spec (h - ky) r); [subst ky; lia |].
      destruct (Nat.ltb_spec r ky); [subst ky; lia | reflexivity].
    + intros a i Hi [Hw Ha]. apply Hin in Hi. split; [exact Hw |].
      rewrite column_step_untouched; [exact Ha | subst kx; lia |].
      rewrite Hw. subst kx. lia.
Qed.

Lemma edge_mask_profile_witness :
  exists m, edge_mask (480 + 60 + 60) (640 + 60 + 60) 60 60 = Some m.
Proof.
  destruct (edge_mask_profile 480 640 60 60) as [m [Hm _]]; [lia | lia |].
  now exists m.
Defined.

End EdgeMaskFacts.

Section EntryOptions.

Import Entry EntrySamples.
Open Scope string_scope.

Variable json_loads : string -> exn + json.
Variable generate_parallax_video :
  string -> string -> value -> value -> value -> value -> value -> value ->
  exn + string.

(** X15.  The outcome depends on the option object only through the six
    recognised names, and not at all on arguments after the third: two
    command lines whose option objects agree on these names end alike. *)
Theorem only_recognised_options_matter
    (prog input_path output_path s1 s2 : string) (rest1 rest2 : list string)
    (d1 d2 : dict) :
  json_loads s1 = inr (JObject d1) -> json_loads s2 = inr (JObject d2) ->
  (forall k dflt, In k recognised_keys -> get d1 k dflt = get d2 k dflt) ->
  main json_loads generate_parallax_video
    (prog :: input_path :: output_path :: s1 :: rest1)
  = main json_loads generate_parallax_video
      (prog :: input_path :: output_path :: s2 :: rest2).
Proof.
  intros H1 H2 Hagree. simpl. rewrite H1, H2.
  rewrite !(Hagree _ _) by (unfold recognised_keys; simpl; tauto).
  reflexivity.
Qed.

(** X24.  When the encoder ends with a non-zero status, the run ends with
    exit status 1 and the single failure line carries the encoder's error
    text verbatim after "FFmpeg failed: "; with status 0 it ends with exit
    status 0 and the success line. *)
Theorem encoder_status_decides_outcome
    (prog input_path output_path stderr_text : string) (returncode : Z) :
  main json_loads (pipeline_encoding returncode stderr_text)
    [prog; input_path; output_path]
  = if (returncode =? 0)%Z
    then mkProcess [Success output_path] [] 0
    else mkProcess [Failure ("FFmpeg failed: " ++ stderr_text)] [] 1.
Proof.
  simpl. unfold pipeline_encoding, encoder_outcome.
  destruct (returncode =? 0)%Z; reflexivity.
Qed.

End EntryOptions.

Section EntryOptionsRun.

Import Entry EntrySamples.
Open Scope string_scope.

Lemma only_recognised_options_matter_witness :
  let loads := loads_table
                 [("A", JObject [("zoom", VStr "in")]);
                  ("B", JObject [("comment", VStr "x"); ("zoom", VStr "in")])] in
  main loads pipeline_ok ["prog"; "in.png"; "out.mp4"; "A"]
  = main loads pipeline_ok ["prog"; "in.png"; "out.mp4"; "B"; "extra"].
Proof.
  apply (only_recognised_options_matter _ pipeline_ok "prog" "in.png" "out.mp4"
           "A" "B" [] ["extra"]
           [("zoom", VStr "in")] [("comment", VStr "x"); ("zoom", VStr "in")]).
  - reflexivity.
  - reflexivity.
  - intros k dflt Hk. unfold recognised_keys in Hk. simpl in Hk.
    destruct Hk as [<- | [<- | [<- | [<- | [<- | [<- | []]]]]]]; reflexivity.
Defined.

Lemma non_object_options_escape_handler_witness :
  let p := main (loads_table [("[1, 2]", JOther)]) pipeline_ok
             ["prog"; "in.png"; "out.mp4"; "[1, 2]"] in
  exit_code p = 1%Z /\ stdout p = [].
Proof.
  destruct (non_object_options_escape_handler
              (loads_table [("[1, 2]", JOther)]) pipeline_ok
              "prog" "in.png" "out.mp4" "[1, 2]" [] eq_refl)
    as [H1 [H2 _]].
  split; assumption.
Defined.

End EntryOptionsRun.

(** ** The estimator cache *)

Section EstimatorFacts.

Import Estimator.

Lemma calls_cached (n : nat) (w : world) (obj : nat) :
  depth_estimator w = Some obj -> calls n w = (repeat obj n, w).
Proof.
  intros Hc. induction n as [| n IH]; simpl; [reflexivity |].
  unfold get_depth_estimator. rewrite Hc, IH. reflexivity.
Qed.

(** X18.  However often it is called, [get_depth_estimator] hands out one and the
    same estimator and builds at most one: from an empty cache the first
    call builds it, prints the two messages and fills the cache; with a
    filled cache nothing changes. *)
Theorem estimator_built_once (n : nat) (w : world) :
  exists obj w',
    calls (S n) w = (repeat obj (S n), w')
    /\ depth_estimator w' = Some obj
    /\ match depth_estimator w with
       | None => obj = next_object w
                 /\ next_object w' = S (next_object w)
                 /\ printed w' = printed w ++ [Loading; Loaded]
       | Some cached => obj = cached /\ w' = w
       end.
Proof.
  destruct (depth_estimator w) as [cached |] eqn:Hc.
  - exists cached, w. rewrite (calls_cached _ _ _ Hc). repeat split. exact Hc.
  - exists (next_object w),
      (mkWorld (Some (next_object w)) (S (next_object w))
               ((printed w ++ [Loading]) ++ [Loaded])).
    simpl. unfold get_depth_estimator. rewrite Hc. simpl.
    rewrite (calls_cached n _ (next_object w)) by reflexivity.
    repeat split. now rewrite <- app_assoc.
Qed.

End EstimatorFacts.

(** ** Subtitle time stamps *)

Section SrtFacts.

Import Srt.
Open Scope Z_scope.

Lemma round_half_even_bounds (q : Q) :
  (inject_Z (round_half_even q) - (1 # 2) <= q)%Q
  /\ (q <= inject_Z (round_half_even q) + (1 # 2))%Q
  /\ Qfloor q <= round_half_even q <= Qfloor q + 1.
Proof.
  unfold round_half_even.
  pose proof (Qfloor_le q) as Hlo. pose proof (Qlt_floor q) as Hhi.
  rewrite inject_Z_plus in Hhi. change (inject_Z 1) with 1%Q in Hhi.
  destruct (Qcompare (q - inject_Z (Qfloor q)) (1 # 2)) eqn:Hc.
  - apply Qeq_alt in Hc.
    destruct (Z.even (Qfloor q)).
    + repeat split; try lia; lra.
    + rewrite inject_Z_plus. change (inject_Z 1) with 1%Q.
      repeat split; try lia; lra.
  - apply Qlt_alt in Hc. repeat split; try lia; lra.
  - apply Qgt_alt in Hc. rewrite inject_Z_plus. change (inject_Z 1) with 1%Q.
    repeat split; try lia; lra.
Qed.

Lemma timedelta_nonneg (seconds : Q) : (0 <= seconds)%Q -> 0 <= timedelta seconds.
Proof.
  intros Hs. unfold timedelta.
  destruct (round_half_even_bounds (seconds * 1000000)) as [_ [_ [Hf _]]].
  assert (H : Qfloor (inject_Z 0) <= Qfloor (seconds * 1000000)).
  { apply Qfloor_resp_le. change (inject_Z 0) with 0%Q. lra. }
  rewrite Qfloor_Z in H. lia.
Qed.

Lemma timedelta_below (seconds : Q) (n : Z) :
  (seconds < inject_Z n)%Q -> timedelta seconds <= n * 1000000.
Proof.
  intros Hs. unfold timedelta.
  destruct (round_half_even_bounds (seconds * 1000000)) as [Hlo _].
  assert (H : (inject_Z (round_half_even (seconds * 1000000))
               < inject_Z (n * 1000000 + 1))%Q).
  { rewrite inject_Z_plus, inject_Z_mult.
    change (inject_Z 1) with 1%Q. change (inject_Z 1000000) with 1000000%Q. lra. }
  rewrite <- Zlt_Qlt in H. lia.
Qed.

Lemma time_fields_of_delta (seconds : Q) :
  0 <= timedelta seconds ->
  let '(hours, minutes, secs, milliseconds) := time_fields seconds in
  0 <= hours /\ 0 <= minutes < 60 /\ 0 <= secs < 60 /\ 0 <= milliseconds < 1000
  /\ ((hours * 60 + minutes) * 60 + secs) * 1000 + milliseconds
     = timedelta seconds / 1000
  /\ hours = timedelta seconds / 3600000000.
Proof.
  intros Hd. unfold time_fields, divmod, microseconds, int_total_seconds.
  rewrite Z.quot_div_nonneg by lia.
  set (delta := timedelta seconds) in *.
  Z.div_mod_to_equations. lia.
Qed.

Lemma format_d_two (n : Z) : 0 <= n < 100 -> format_d 2 n = two_digits n.
Proof.
  intros Hn.
  assert (H : forallb (fun k => String.eqb (format_d 2 (Z.of_nat k))
                                           (two_digits (Z.of_nat k)))
                      (seq 0 100) = true) by (vm_compute; reflexivity).
  rewrite forallb_forall in H. specialize (H (Z.to_nat n)).
  rewrite Z2Nat.id in H by lia. apply String.eqb_eq, H, in_seq. lia.
Qed.

Lemma format_d_three (n : Z) : 0 <= n < 1000 -> format_d 3 n = three_digits n.
Proof.
  intros Hn.
  assert (H : forallb (fun k => String.eqb (format_d 3 (Z.of_nat k))
                                           (three_digits (Z.of_nat k)))
                      (seq 0 1000) = true) by (vm_compute; reflexivity).
  rewrite forallb_forall in H. specialize (H (Z.to_nat n)).
  rewrite Z2Nat.id in H by lia. apply String.eqb_eq, H, in_seq. lia.
Qed.

Lemma format_time_layout (seconds : Q) :
  0 <= timedelta seconds < 360000000000 ->
  let '(hours, minutes, secs, milliseconds) := time_fields seconds in
  format_time seconds
  = (two_digits hours ++ ":" ++ two_digits minutes ++ ":" ++ two_digits secs
     ++ "," ++ three_digits milliseconds)%string.
Proof.
  intros [H0 H1]. pose proof (time_fields_of_delta seconds H0) as Hf.
  unfold format_time.
  destruct (time_fields seconds) as [[[hours minutes] secs] milliseconds].
  destruct Hf as [Hh [Hm [Hs [Hms [_ Hhours]]]]].
  assert (hours < 100) by (subst hours; Z.div_mod_to_equations; lia).
  rewrite !format_d_two, format_d_three by lia. reflexivity.
Qed.



(** X21.  Below one hundred hours the result has the fixed layout HH:MM:SS,mmm:
    twelve characters, every field zero-padded to its width. *)
Theorem format_time_fixed_layout (seconds : Q) :
  (0 <= seconds)%Q -> (seconds < 359999)%Q ->
  String.length (format_time seconds) = 12%nat
  /\ let '(hours, minutes, secs, milliseconds) := time_fields seconds in
     format_time seconds
     = (two_digits hours ++ ":" ++ two_digits minutes ++ ":" ++ two_digits secs
        ++ "," ++ three_digits milliseconds)%string.
Proof.
  intros H0 H1.
  pose proof (timedelta_nonneg seconds H0) as Hd0.
  pose proof (timedelta_below seconds 359999 H1) as Hd1.
  pose proof (format_time_layout seconds ltac:(lia)) as Hl.
  destruct (time_fields seconds) as [[[hours minutes] secs] milliseconds].
  split; [rewrite Hl; reflexivity | exact Hl].
Qed.

Lemma format_time_fixed_layout_witness :
  String.length (format_time (4272 # 1000)) = 12%nat.
Proof.
  apply (format_time_fixed_layout (4272 # 1000)); unfold Qle, Qlt; simpl; lia.
Defined.

Lemma digit_inj (d d' : Z) :
  0 <= d <= 9 -> 0 <= d' <= 9 -> digit d = digit d' -> d = d'.
Proof.
  intros Hd Hd' H. unfold digit in H.
  apply (f_equal nat_of_ascii) in H.
  rewrite !nat_ascii_embedding in H by lia. lia.
Qed.

Lemma two_digits_inj (n n' : Z) :
  0 <= n < 100 -> 0 <= n' < 100 -> two_digits n = two_digits n' -> n = n'.
Proof.
  intros Hn Hn' H. unfold two_digits in H. injection H as H1 H0.
  apply digit_inj in H1; [| Z.div_mod_to_equations; lia ..].
  apply digit_inj in H0; [| Z.div_mod_to_equations; lia ..].
  Z.div_mod_to_equations. lia.
Qed.

Lemma three_digits_inj (n n' : Z) :
  0 <= n < 1000 -> 0 <= n' < 1000 -> three_digits n = three_digits n' -> n = n'.
Proof.
  intros Hn Hn' H.
  assert (H2 : digit (n / 100) = digit (n' / 100))
    by (unfold three_digits in H; congruence).
  assert (H10 : two_digits (n mod 100) = two_digits (n' mod 100))
    by (unfold three_digits in H; congruence).
  apply digit_inj in H2; [| Z.div_mod_to_equations; lia ..].
  apply two_digits_inj in H10; [| Z.div_mod_to_equations; lia ..].
  Z.div_mod_to_equations. lia.
Qed.

Lemma layout_inj (h m s ms h' m' s' ms' : Z) :
  0 <= h < 100 -> 0 <= m < 100 -> 0 <= s < 100 -> 0 <= ms < 1000 ->
  0 <= h' < 100 -> 0 <= m' < 100 -> 0 <= s' < 100 -> 0 <= ms' < 1000 ->
  (two_digits h ++ ":" ++ two_digits m ++ ":" ++ two_digits s
   ++ "," ++ three_digits ms)%string
  = (two_digits h' ++ ":" ++ two_digits m' ++ ":" ++ two_digits s'
     ++ "," ++ three_digits ms')%string ->
  h = h' /\ m = m' /\ s = s' /\ ms = ms'.
Proof.
  intros Hh Hm Hs Hms Hh' Hm' Hs' Hms' H.
  unfold three_digits, two_digits in H. simpl in H.
  assert (Eh : two_digits h = two_digits h') by (unfold two_digits; congruence).
  assert (Em : two_digits m = two_digits m') by (unfold two_digits; congruence).
  assert (Es : two_digits s = two_digits s') by (unfold two_digits; congruence).
  assert (Ems : three_digits ms = three_digits ms')
    by (unfold three_digits, two_digits; congruence).
  apply two_digits_inj in Eh; [| lia | lia].
  apply two_digits_inj in Em; [| lia | lia].
  apply two_digits_inj in Es; [| lia | lia].
  apply three_digits_inj in Ems; [| lia | lia].
  repeat split; assumption.
Qed.

(** X22.  Below one hundred hours, two times get the same text exactly when they
    fall in the same millisecond: the text loses nothing but the
    sub-millisecond part. *)
Theorem same_text_same_millisecond (a b : Q) :
  (0 <= a)%Q -> (a < 359999)%Q -> (0 <= b)%Q -> (b < 359999)%Q ->
  format_time a = format_time b <-> timedelta a / 1000 = timedelta b / 1000.
Proof.
  intros Ha0 Ha1 Hb0 Hb1.
  pose proof (timedelta_nonneg a Ha0) as Hda0.
  pose proof (timedelta_below a 359999 Ha1) as Hda1.
  pose proof (timedelta_nonneg b Hb0) as Hdb0.
  pose proof (timedelta_below b 359999 Hb1) as Hdb1.
  pose proof (format_time_layout a ltac:(lia)) as Hla.
  pose proof (format_time_layout b ltac:(lia)) as Hlb.
  pose proof (time_fields_of_delta a Hda0) as Hfa.
  pose proof (time_fields_of_delta b Hdb0) as Hfb.
  destruct (time_fields a) as [[[h m] s] ms].
  destruct (time_fields b) as [[[h' m'] s'] ms'].
  destruct Hfa as [Hh [Hm [Hs [Hms [Hsum Hhours]]]]].
  destruct Hfb as [Hh' [Hm' [Hs' [Hms' [Hsum' Hhours']]]]].
  assert (Hh99 : h < 100) by (subst h; Z.div_mod_to_equations; lia).
  assert (Hh99' : h' < 100) by (subst h'; Z.div_mod_to_equations; lia).
  rewrite Hla, Hlb. split.
  - intros Heq. rewrite <- Hsum, <- Hsum'.
    apply layout_inj in Heq; lia.
  - intros Heq. rewrite <- Hsum, <- Hsum' in Heq.
    assert (H : h = h' /\ m = m' /\ s = s' /\ ms = ms') by lia.
    destruct H as [-> [-> [-> ->]]]. reflexivity.
Qed.

Lemma same_text_same_millisecond_witness :
  format_time (4272 # 1000) = format_time (42725 # 10000).
Proof.
  apply (same_text_same_millisecond (4272 # 1000) (42725 # 10000));
    try (unfold Qle, Qlt; simpl; lia).
  reflexivity.
Defined.

(** X23.  A negative time of less than a second comes out without a sign, as one
    second minus its magnitude: -0.25 s is printed as 00:00:00,750. *)
Theorem negative_subsecond_wraps (seconds : Q) :
  -1000000 < timedelta seconds < 0 ->
  format_time seconds
  = ("00:00:00," ++ three_digits ((timedelta seconds + 1000000) / 1000))%string.
Proof.
  intros Hd. unfold format_time, time_fields, divmod, microseconds,
    int_total_seconds.
  set (delta := timedelta seconds) in *.
  assert (Hq : Z.quot delta 1000000 = 0).
  { rewrite <- (Z.opp_involutive delta), Z.quot_opp_l by lia.
    rewrite Z.quot_small by lia. reflexivity. }
  assert (Hm : delta mod 1000000 = delta + 1000000).
  { symmetry. apply (Z.mod_unique _ _ (-1)); lia. }
  rewrite Hq, Hm. simpl Z.div at 1. simpl Z.modulo.
  rewrite format_d_three by (Z.div_mod_to_equations; lia).
  reflexivity.
Qed.

Lemma negative_subsecond_wraps_witness :
  format_time (-1 # 4) = ("00:00:00," ++ three_digits 750)%string.
Proof. apply (negative_subsecond_wraps (-1 # 4)). split; reflexivity. Defined.

(** Rounding to the microsecond goes to the even neighbour on a tie, and
    an hour count below zero carries its sign. *)
Example format_time_tie : format_time (1 # 128) = "00:00:00,007"%string.
Proof. reflexivity. Qed.

Example format_time_negative : format_time (-5 # 4) = "-1:59:59,750"%string.
Proof. reflexivity. Qed.

End SrtFacts.

(** ** The foreground threshold *)

Section ForegroundFacts.

Import Depth Foreground.
Open Scope Q_scope.

Lemma insert_perm (x : Q) (l : list Q) : Permutation (insert x l) (x :: l).
Proof.
  induction l as [| y l IH]; simpl; [reflexivity |].
  destruct (Qle_bool x y); [reflexivity |].
  rewrite IH. apply perm_swap.
Qed.

Lemma sort_perm (l : list Q) : Permutation (sort l) l.
Proof.
  induction l as [| x l IH]; simpl; [reflexivity |].
  rewrite insert_perm. now apply perm_skip.
Qed.

Lemma insert_sorted (x : Q) (l : list Q) :
  StronglySorted Qle l -> StronglySorted Qle (insert x l).
Proof.
  induction 1 as [| y l Hs IH Hall]; simpl.
  - constructor; constructor.
  - destruct (Qle_bool x y) eqn:Hxy.
    + apply Qle_bool_iff in Hxy. constructor; [now constructor |].
      constructor; [exact Hxy |].
      eapply Forall_impl; [| exact Hall]. intros z Hz. now apply Qle_trans with y.
    + assert (Hyx : y <= x).
      { apply Qlt_le_weak, Qnot_le_lt. intros H. apply Qle_bool_iff in H. congruence. }
      constructor; [exact IH |].
      eapply Permutation_Forall; [symmetry; apply insert_perm |].
      now constructor.
Qed.

Lemma sort_sorted (l : list Q) : StronglySorted Qle (sort l).
Proof.
  induction l as [| x l IH]; simpl; [constructor | now apply insert_sorted].
Qed.

Lemma sorted_nth (l : list Q) :
  StronglySorted Qle l ->
  forall i j, (i <= j)%nat -> (j < length l)%nat -> nth i l 0 <= nth j l 0.
Proof.
  induction 1 as [| y l Hs IH Hall]; intros i j Hij Hj; simpl in Hj; [lia |].
  destruct i as [| i], j as [| j]; simpl; try lia.
  - apply Qle_refl.
  - rewrite Forall_forall in Hall. apply Hall, nth_In. lia.
  - apply IH; lia.
Qed.

Lemma filter_length_perm (f : Q -> bool) (l l' : list Q) :
  Permutation l l' -> length (filter f l) = length (filter f l').
Proof.
  induction 1 as [| x l l' _ IH | x y l | l l' l'' _ IH1 _ IH2]; simpl.
  - reflexivity.
  - destruct (f x); simpl; now rewrite IH.
  - destruct (f x), (f y); reflexivity.
  - now rewrite IH1.
Qed.

(** If the predicate holds from index [k] on, at least [length l - k]
    elements pass the filter. *)
Lemma filter_length_suffix (f : Q -> bool) (l : list Q) : forall k,
  (forall j, (k <= j)%nat -> (j < length l)%nat -> f (nth j l 0) = true) ->
  (length l - k <= length (filter f l))%nat.
Proof.
  induction l as [| x l IH]; intros k H; simpl; [lia |].
  destruct k as [| k].
  - assert (Hx : f x = true) by (apply (H 0%nat); simpl; lia).
    rewrite Hx. simpl.
    assert (length l - 0 <= length (filter f l))%nat.
    { apply IH. intros j _ Hj. apply (H (S j)); simpl; lia. }
    lia.
  - assert (length l - k <= length (filter f l))%nat.
    { apply IH. intros j Hkj Hj. apply (H (S j)); simpl; lia. }
    destruct (f x); simpl; lia.
Qed.

Lemma coverage_of_threshold (t : Q) (a : array2 Q) :
  coverage (map (map (fun d => astype_float (Qle_bool t d))) a)
  = length (filter (Qle_bool t) (concat a)).
Proof.
  unfold coverage. rewrite concat_rescaled.
  induction (concat a) as [| d l IH]; simpl; [reflexivity |].
  destruct (Qle_bool t d); simpl; now rewrite IH.
Qed.

(** X19.  On a non-empty depth map the 40th-percentile threshold lies between the
    least and the greatest depth; the mask [depth >= threshold] is
    therefore never empty, and it holds at least 60% of [n - 1] of the [n]
    samples. *)
Theorem foreground_threshold_mask (depth_resized : array2 Q) :
  concat depth_resized <> [] ->
  exists fg_threshold m lo hi,
    percentile depth_resized 40 = Some fg_threshold
    /\ fg_mask depth_resized = Some m
    /\ arr_min depth_resized = Some lo /\ arr_max depth_resized = Some hi
    /\ lo <= fg_threshold /\ fg_threshold <= hi
    /\ (1 <= coverage m)%nat
    /\ (3 * (length (concat depth_resized) - 1) <= 5 * coverage m)%nat.
Proof.
  intros Hne.
  unfold fg_mask, percentile, arr_min, arr_max.
  destruct (concat depth_resized) as [| x0 xs] eqn:Hflat; [congruence | clear Hne].
  set (flat := x0 :: xs) in *.
  set (s := sort flat).
  pose proof (sort_perm flat) as Hperm. fold s in Hperm.
  pose proof (sort_sorted flat) as Hsorted. fold s in Hsorted.
  assert (Hn : length s = S (length xs)).
  { rewrite (Permutation_length Hperm). reflexivity. }
  set (n := length s) in *.
  set (pos := 40 / 100 * inject_Z (Z.of_nat (n - 1))).
  assert (Hpos : pos == (2 # 5) * inject_Z (Z.of_nat (n - 1))).
  { subst pos. unfold Qdiv. setoid_replace (40 * / 100) with (2 # 5) by reflexivity.
    reflexivity. }
  assert (HN1 : 0 <= inject_Z (Z.of_nat (n - 1))).
  { change 0 with (inject_Z 0). rewrite <- Zle_Qle. lia. }
  assert (Hpos0 : 0 <= pos) by (rewrite Hpos; nra).
  assert (HF0 : (0 <= Qfloor pos)%Z).
  { rewrite <- (Qfloor_Z 0). now apply Qfloor_resp_le. }
  set (lower := Z.to_nat (Qfloor pos)).
  assert (Hlower : inject_Z (Z.of_nat lower) <= pos
                   /\ pos < inject_Z (Z.of_nat lower) + 1).
  { subst lower. rewrite Z2Nat.id by exact HF0. split; [apply Qfloor_le |].
    pose proof (Qlt_floor pos) as H. rewrite inject_Z_plus in H. exact H. }
  assert (H5 : (5 * lower <= 2 * (n - 1))%nat).
  { assert (H : inject_Z (Z.of_nat (5 * lower)) <= inject_Z (Z.of_nat (2 * (n - 1)))).
    { rewrite !Nat2Z.inj_mul, !inject_Z_mult.
      change (inject_Z (Z.of_nat 5)) with 5. change (inject_Z (Z.of_nat 2)) with 2.
      destruct Hlower as [Hl _]. rewrite Hpos in Hl. lra. }
    rewrite <- Zle_Qle in H. lia. }
  set (upper := Nat.min (lower + 1) (n - 1)).
  set (gamma := pos - inject_Z (Z.of_nat lower)).
  assert (Hgamma : 0 <= gamma /\ gamma < 1) by (subst gamma; destruct Hlower; split; lra).
  assert (Hlu : (lower <= upper)%nat /\ (upper < n)%nat) by (subst upper; lia).
  set (t := nth lower s 0 + gamma * (nth upper s 0 - nth lower s 0)).
  assert (Hlow_up : nth lower s 0 <= nth upper s 0).
  { apply sorted_nth; [exact Hsorted | lia | fold n; lia]. }
  assert (Ht : nth lower s 0 <= t /\ t <= nth upper s 0).
  { subst t. destruct Hgamma. split; nra. }
  destruct (fold_min_spec xs x0) as [Hlb _].
  destruct (fold_max_spec xs x0) as [Hub _].
  assert (Hin : forall i, (i < n)%nat -> In (nth i s 0) flat).
  { intros i Hi. apply (Permutation_in _ Hperm), nth_In. exact Hi. }
  assert (Hcount : (n - upper <= length (filter (Qle_bool t) flat))%nat).
  { rewrite <- (filter_length_perm _ _ _ Hperm).
    apply filter_length_suffix. intros j Huj Hj.
    apply Qle_bool_iff. eapply Qle_trans; [apply Ht |].
    apply sorted_nth; assumption. }
  exists t, (map (map (fun d => astype_float (Qle_bool t d))) depth_resized),
    (fold_left Qmin xs x0), (fold_left Qmax xs x0).
  rewrite coverage_of_threshold, Hflat. fold flat.
  assert (Hlen : length flat = n) by (subst n; symmetry; apply (Permutation_length Hperm)).
  rewrite Hlen.
  repeat split; try reflexivity.
  - eapply Qle_trans; [apply Hlb, (Hin lower); lia | apply Ht].
  - eapply Qle_trans; [apply Ht | apply Hub, (Hin upper); lia].
  - lia.
  - subst upper. lia.
Qed.

Lemma foreground_threshold_mask_witness :
  exists t, percentile [[1; 5; 3]; [2; 4]] 40 = Some t.
Proof.
  destruct (foreground_threshold_mask [[1; 5; 3]; [2; 4]]) as [t [m [lo [hi [Ht _]]]]].
  - simpl. discriminate.
  - now exists t.
Defined.

(** The 40th percentile of 1 .. 5 lies 0.6 of the way from 2 to 3. *)
Example percentile_example :
  match percentile [[1; 5; 3]; [2; 4]] 40 with
  | Some t => t == 26 # 10
  | None => False
  end.
Proof. vm_compute. reflexivity. Qed.

End ForegroundFacts.

(** ** The seam blend in single precision *)

Section SeamBlendFacts.

Import SeamBlend.
Open Scope Q_scope.

Lemma binade_spec (fuel : nat) : forall (e : Z) (x : Q),
  Float32.binade fuel e x = (e - Z.of_nat fuel)%Z
  \/ 2 ^ Float32.binade fuel e x <= x.
Proof.
  induction fuel as [| fuel IH]; intros e x.
  - left. simpl. lia.
  - cbn [Float32.binade].
    destruct (Qle_bool (2 ^ e) x) eqn:Hle.
    + right. now apply Qle_bool_iff.
    + destruct (IH (e - 1)%Z x) as [H | H]; [left; lia | right; exact H].
Qed.

Lemma binade_comp (fuel : nat) : forall (e : Z) (x y : Q),
  x == y -> Float32.binade fuel e x = Float32.binade fuel e y.
Proof.
  induction fuel as [| fuel IH]; intros e x y Hxy; [reflexivity |].
  cbn [Float32.binade].
  rewrite (Qleb_comp _ _ (Qeq_refl (2 ^ e)) _ _ Hxy).
  destruct (Qle_bool (2 ^ e) y); [reflexivity | now apply IH].
Qed.

Lemma round_half_even_comp (x y : Q) :
  x == y -> Srt.round_half_even x = Srt.round_half_even y.
Proof.
  intros Hxy. unfold Srt.round_half_even.
  rewrite (Qfloor_comp _ _ Hxy).
  assert (H : x - inject_Z (Qfloor y) == y - inject_Z (Qfloor y))
    by (rewrite Hxy; reflexivity).
  rewrite (Qcompare_comp _ _ H _ _ (Qeq_refl (1 # 2))). reflexivity.
Qed.

Lemma round_comp (x y : Q) : x == y -> Float32.round x == Float32.round y.
Proof.
  intros Hxy. unfold Float32.round, Float32.exponent.
  assert (Ha : Qabs x == Qabs y) by (now rewrite Hxy).
  rewrite (binade_comp _ _ _ _ Ha).
  set (quantum := 2 ^ (Float32.binade 253 127 (Qabs y) - 23)).
  assert (Hq : Qabs x / quantum == Qabs y / quantum) by (now rewrite Ha).
  rewrite (round_half_even_comp _ _ Hq).
  rewrite (Qleb_comp _ _ (Qeq_refl 0) _ _ Hxy). reflexivity.
Qed.

Lemma Qabs_of_nonneg (x : Q) : 0 <= x -> Qabs x = x.
Proof.
  destruct x as [n d]. unfold Qle. simpl. intros H.
  unfold Qabs. f_equal. apply Z.abs_eq. lia.
Qed.

(** Half a quantum is at most a 2^-24 part of the magnitude, or 2^-150 for
    subnormals. *)
Lemma half_quantum_bound (x : Q) :
  0 <= x ->
  0 < 2 ^ (Float32.exponent x - 23)
  /\ 2 ^ (Float32.exponent x - 23) * (1 # 2) <= (x + 1) * (1 # 16777216).
Proof.
  intros Hx. split; [apply Qpower_0_lt; reflexivity |].
  unfold Float32.exponent.
  destruct (binade_spec 253 127 x) as [H | H].
  - rewrite H.
    assert (Hc : 2 ^ (127 - Z.of_nat 253 - 23) * (1 # 2) <= 1 # 16777216).
    { apply Qle_bool_iff. vm_compute. reflexivity. }
    lra.
  - set (e := Float32.binade 253 127 x) in *.
    assert (Hp : 2 ^ (e - 23) == 2 ^ e * (1 # 8388608)).
    { replace (e - 23)%Z with (e + (-23))%Z by lia.
      rewrite Qpower_plus by discriminate.
      apply Qmult_comp; reflexivity. }
    rewrite Hp. lra.
Qed.

(** Rounding a non-negative number to binary32 keeps it non-negative and
    moves it by at most a 2^-24 part of its magnitude plus one. *)
Lemma round_error (x : Q) :
  0 <= x ->
  0 <= Float32.round x
  /\ x - (x + 1) * (1 # 16777216) <= Float32.round x
  /\ Float32.round x <= x + (x + 1) * (1 # 16777216).
Proof.
  intros Hx. unfold Float32.round.
  rewrite (Qabs_of_nonneg x Hx).
  assert (H0 : Qle_bool 0 x = true) by now apply Qle_bool_iff.
  rewrite H0.
  destruct (half_quantum_bound x Hx) as [Hq Hhalf].
  set (q := 2 ^ (Float32.exponent x - 23)) in *.
  destruct (round_half_even_bounds (x / q)) as [Hlo [Hhi [Hfl _]]].
  set (r := Srt.round_half_even (x / q)) in *.
  assert (Ht : x / q * q == x).
  { unfold Qdiv. rewrite <- Qmult_assoc, (Qmult_comm (/ q)), Qmult_inv_r by lra.
    ring. }
  assert (Hr0 : 0 <= inject_Z r).
  { change 0 with (inject_Z 0). rewrite <- Zle_Qle.
    assert (Hf : (Qfloor (inject_Z 0) <= Qfloor (x / q))%Z).
    { apply Qfloor_resp_le. change (inject_Z 0) with 0.
      apply Qle_shift_div_l; [exact Hq | lra]. }
    rewrite Qfloor_Z in Hf. lia. }
  set (t := x / q) in *.
  repeat split; nra.
Qed.

Lemma round_sample (z : Z) :
  (0 <= z <= 255)%Z -> Float32.round (inject_Z z) == inject_Z z.
Proof.
  intros Hz.
  assert (H : forallb (fun k => Qeq_bool (Float32.round (inject_Z (Z.of_nat k)))
                                         (inject_Z (Z.of_nat k)))
                      (seq 0 256) = true) by (vm_compute; reflexivity).
  rewrite forallb_forall in H. specialize (H (Z.to_nat z)).
  rewrite Z2Nat.id in H by lia. apply Qeq_bool_iff, H, in_seq. lia.
Qed.

Lemma astype_uint8_comp (x y : Q) : x == y -> astype_uint8 x = astype_uint8 y.
Proof.
  intros Hxy. unfold astype_uint8.
  now rewrite (Qleb_comp _ _ (Qeq_refl 0) _ _ Hxy), (Qfloor_comp _ _ Hxy),
    (Qceiling_comp _ _ Hxy).
Qed.

Lemma astype_uint8_of_sample (z : Z) :
  (0 <= z <= 255)%Z -> astype_uint8 (inject_Z z) = z.
Proof.
  intros Hz. unfold astype_uint8.
  assert (H : Qle_bool 0 (inject_Z z) = true).
  { apply Qle_bool_iff. change 0 with (inject_Z 0). rewrite <- Zle_Qle. lia. }
  rewrite H, Qfloor_Z. apply Z.mod_small. lia.
Qed.

(** X17.  Blending a sharp and a blurred 8-bit sample with a weight in
    [0, 1], in single precision as the code does, gives a value in
    [0, 255], so the cast to 8 bits never wraps; it is at most the larger
    sample and at least the smaller one minus one grey level (rounding
    can fall just short of the smaller sample); weight 1 keeps the sharp
    sample and weight 0 takes the blurred one. *)
Theorem blend_between (padded blurred : Z) (weight : Q) :
  (0 <= padded <= 255)%Z -> (0 <= blurred <= 255)%Z ->
  0 <= weight -> weight <= 1 ->
  (0 <= blend padded blurred weight <= 255)%Z
  /\ (Z.min padded blurred - 1 <= blend padded blurred weight
      <= Z.max padded blurred)%Z
  /\ (weight == 1 -> blend padded blurred weight = padded)
  /\ (weight == 0 -> blend padded blurred weight = blurred).
Proof.
  intros Hp Hb Hw0 Hw1. unfold blend.
  assert (HP : 0 <= inject_Z padded /\ inject_Z padded <= 255).
  { change 0 with (inject_Z 0). change 255 with (inject_Z 255).
    rewrite <- !Zle_Qle. lia. }
  assert (HB : 0 <= inject_Z blurred /\ inject_Z blurred <= 255).
  { change 0 with (inject_Z 0). change 255 with (inject_Z 255).
    rewrite <- !Zle_Qle. lia. }
  assert (Hmin : 0 <= inject_Z (Z.min padded blurred)
                 /\ inject_Z (Z.min padded blurred) <= inject_Z padded
                 /\ inject_Z (Z.min padded blurred) <= inject_Z blurred).
  { change 0 with (inject_Z 0). rewrite <- !Zle_Qle. lia. }
  assert (Hmax : inject_Z (Z.max padded blurred) <= 255
                 /\ inject_Z padded <= inject_Z (Z.max padded blurred)
                 /\ inject_Z blurred <= inject_Z (Z.max padded blurred)).
  { change 255 with (inject_Z 255). rewrite <- !Zle_Qle. lia. }
  set (P := inject_Z padded) in *. set (B := inject_Z blurred) in *.
  set (lo := inject_Z (Z.min padded blurred)) in *.
  set (hi := inject_Z (Z.max padded blurred)) in *.
  split; [| split; [| split]].
  3:{ intros H1.
      assert (E1 : Float32.round (P * weight) == P).
      { rewrite (round_comp (P * weight) P) by (rewrite H1; ring).
        now apply round_sample. }
      assert (E2 : Float32.round (1 - weight) == 0).
      { rewrite (round_comp (1 - weight) (inject_Z 0)) by (rewrite H1; reflexivity).
        apply (round_sample 0). lia. }
      assert (E3 : Float32.round (B * Float32.round (1 - weight)) == 0).
      { rewrite (round_comp _ (inject_Z 0)) by (rewrite E2; change (inject_Z 0) with 0; ring).
        apply (round_sample 0). lia. }
      rewrite (astype_uint8_comp _ P).
      - now apply astype_uint8_of_sample.
      - rewrite (round_comp _ P) by (rewrite E1, E3; ring).
        now apply round_sample. }
  3:{ intros H0.
      assert (E1 : Float32.round (P * weight) == 0).
      { rewrite (round_comp (P * weight) (inject_Z 0))
          by (rewrite H0; change (inject_Z 0) with 0; ring).
        apply (round_sample 0). lia. }
      assert (E2 : Float32.round (1 - weight) == 1).
      { rewrite (round_comp (1 - weight) (inject_Z 1)) by (rewrite H0; reflexivity).
        apply (round_sample 1). lia. }
      assert (E3 : Float32.round (B * Float32.round (1 - weight)) == B).
      { rewrite (round_comp _ B) by (rewrite E2; ring).
        now apply round_sample. }
      rewrite (astype_uint8_comp _ B).
      - now apply astype_uint8_of_sample.
      - rewrite (round_comp _ B) by (rewrite E1, E3; ring).
        now apply round_sample. }
  all: assert (Hx1 : 0 <= P * weight /\ P * weight <= 255) by (split; nra);
    destruct (round_error (P * weight) (proj1 Hx1)) as [Ha0 [Ha1 Ha2]];
    set (a := Float32.round (P * weight)) in *;
    assert (Hx2 : 0 <= 1 - weight) by lra;
    destruct (round_error (1 - weight) Hx2) as [Hc0 [Hc1 Hc2]];
    set (c := Float32.round (1 - weight)) in *;
    assert (Hx3 : 0 <= B * c) by nra;
    assert (Hx3' : B * (1 - weight) - 510 * (1 # 16777216) <= B * c
                   /\ B * c <= B * (1 - weight) + 510 * (1 # 16777216))
      by (split; nra);
    assert (HBw : 0 <= B * (1 - weight) /\ B * (1 - weight) <= 255) by (split; nra);
    destruct (round_error (B * c) Hx3) as [He0 [He1 He2]];
    set (e := Float32.round (B * c)) in *;
    assert (HV : lo <= P * weight + B * (1 - weight)
                 /\ P * weight + B * (1 - weight) <= hi) by (split; nra);
    assert (Hx4 : 0 <= a + e) by lra;
    destruct (round_error (a + e) Hx4) as [Hr0 [Hr1 Hr2]];
    set (r := Float32.round (a + e)) in *;
    assert (Hrlo : lo - (1 # 2) <= r) by lra;
    assert (Hrhi : r <= hi + (1 # 2)) by lra;
    unfold astype_uint8;
    (assert (Hnn : Qle_bool 0 r = true) by now apply Qle_bool_iff);
    rewrite Hnn;
    assert (Hf0 : (0 <= Qfloor r)%Z)
      by (rewrite <- (Qfloor_Z 0); now apply Qfloor_resp_le);
    assert (Hf1 : (Z.min padded blurred - 1 <= Qfloor r)%Z)
      by (assert (Hlt : inject_Z (Z.min padded blurred) < inject_Z (Qfloor r + 2))
            by (rewrite inject_Z_plus; change (inject_Z 2) with 2; fold lo;
                pose proof (Qlt_floor r) as Hq; rewrite inject_Z_plus in Hq;
                change (inject_Z 1) with 1 in Hq; lra);
          rewrite <- Zlt_Qlt in Hlt; lia);
    assert (Hf2 : (Qfloor r <= Z.max padded blurred)%Z)
      by (assert (Hlt : inject_Z (Qfloor r) < inject_Z (Z.max padded blurred + 1))
            by (rewrite inject_Z_plus; change (inject_Z 1) with 1; fold hi;
                pose proof (Qfloor_le r); lra);
          rewrite <- Zlt_Qlt in Hlt; lia);
    rewrite Z.mod_small by lia; lia.
Qed.

Lemma blend_between_witness :
  (Z.min 200 40 - 1 <= blend 200 40 (1 # 4) <= Z.max 200 40)%Z.
Proof. apply (blend_between 200 40 (1 # 4)); [lia | lia | lra | lra]. Defined.

(** A rounding that falls just short: equal samples 48 blended with the
    binary32 weight next to 1/30 give 47. *)
Example blend_falls_short : blend 48 48 (8947849 # 268435456) = 47%Z.
Proof. vm_compute. reflexivity. Qed.

End SeamBlendFacts.
